(** * A shallow embedding of the auxtools bytecode compiler and virtual machine

    Sources: [src/dm/src/vm/vm.rs] (registers, opcodes, [Process],
    [VM::run_program]) and [src/dm/src/vm/compiler.rs] (the [Compiler] that
    lowers a DreamMaker procedure body to bytecode).

    Modelling conventions:
    - bytes are [Z] values in [0, 256); a [u32] is a [Z] in [0, 2^32);
    - a Rust [f32] is an IEEE-754 binary32 number, modelled with the
      Standard Library's [SpecFloat] at precision 24 and [emax] 128, with
      [f32::from_bits] / [f32::to_bits] written out below;
    - a [HashMap] is a stdpp [gmap];
    - a Rust panic ([unwrap] on a failed read or lookup, an out-of-range
      index) is an explicit outcome, and the interpreter runs on fuel, since a
      hand-written buffer may loop forever. *)

From Stdlib Require Import ZArith Lia Floats.SpecFloat.
From stdpp Require Import base list gmap strings.

Open Scope Z_scope.

(** ** IEEE-754 binary32, as Rust's [f32] *)

Module F32.

Definition prec : Z := 24.
Definition emax : Z := 128.

(** [f32::from_bits]: sign bit 31, exponent bits 23..30, mantissa 0..22. *)
Definition from_bits (b : Z) : spec_float :=
  let mx := Z.land b (2 ^ 23 - 1) in
  let ex := Z.land (Z.shiftr b 23) 255 in
  let sx := Z.testbit b 31 in
  if ex =? 0 then
    if mx =? 0 then S754_zero sx else S754_finite sx (Z.to_pos mx) (-149)
  else if ex =? 255 then
    if mx =? 0 then S754_infinity sx else S754_nan
  else S754_finite sx (Z.to_pos (mx + 2 ^ 23)) (ex - 150).

Definition sign_bit (s : bool) : Z := if s then 2 ^ 31 else 0.

(** The quiet NaN [0x7FC00000], the bits [to_bits] gives a NaN. Arithmetic
    results do not go through this case: see [arith_bits]. *)
Definition nan_bits : Z := 2143289344.

(** [f32::to_bits] on canonical binary32 values. *)
Definition to_bits (f : spec_float) : Z :=
  match f with
  | S754_zero s => sign_bit s
  | S754_infinity s => sign_bit s + 2139095040
  | S754_nan => nan_bits
  | S754_finite s m e =>
      if Zpos m <? 2 ^ 23 then sign_bit s + Zpos m
      else sign_bit s + (e + 150) * 2 ^ 23 + (Zpos m - 2 ^ 23)
  end.

(** A bit pattern that [from_bits] reads as a NaN: exponent all ones,
    mantissa non-zero. *)
Definition is_nan_bits (b : Z) : bool :=
  (Z.land (Z.shiftr b 23) 255 =? 255) && negb (Z.land b (2 ^ 23 - 1) =? 0).

(** A NaN with its quiet bit (bit 22) set. *)
Definition quiet (b : Z) : Z := Z.lor b (2 ^ 22).

(** The QNaN floating-point indefinite [0xFFC00000] that SSE writes for an
    invalid operation (0/0, inf-inf, 0*inf) on operands that are not NaN. *)
Definition indefinite_nan_bits : Z := 4290772992.

(** The bits of [f(l, r).to_bits()] for [f32] arithmetic on [l.to_bits()]
    = [lb] and [r.to_bits()] = [rb], as the x86 SSE instructions
    [addss]/[subss]/[mulss]/[divss] compute it with the left operand as first
    source: a NaN operand is passed through with its quiet bit set, the left
    one first; an invalid operation on other operands gives the indefinite
    NaN; every other result is the IEEE-754 rounded result. *)
Definition arith_bits (f : spec_float -> spec_float -> spec_float) (lb rb : Z) : Z :=
  if is_nan_bits lb then quiet lb
  else if is_nan_bits rb then quiet rb
  else match f (from_bits lb) (from_bits rb) with
       | S754_nan => indefinite_nan_bits
       | res => to_bits res
       end.

Definition add (x y : spec_float) := SFadd prec emax x y.
Definition sub (x y : spec_float) := SFsub prec emax x y.
Definition mul (x y : spec_float) := SFmul prec emax x y.
Definition div (x y : spec_float) := SFdiv prec emax x y.

(** [i32 as f32]: round to nearest, ties to even. *)
Definition of_i32 (n : Z) : spec_float := binary_normalize prec emax n 0 false.

(** [PartialOrd for f32]: [partial_cmp] is [None] when either side is NaN. *)
Definition partial_cmp (x y : spec_float) : option comparison := SFcompare x y.

Definition is_nan (f : spec_float) : bool :=
  match f with S754_nan => true | _ => false end.

Definition one_bits : Z := 1065353216.   (* 0x3F800000 = 1.0 *)
Definition zero_bits : Z := 0.           (* 0.0 *)

End F32.

(** Little-endian encodings ([to_le_bytes]) and decodings
    ([read_u32::<LittleEndian>]); only the low bytes are kept, as
    [usize::to_le_bytes] followed by taking four bytes does. *)
Definition byte_at (v : Z) (i : Z) : Z := Z.land (Z.shiftr v (8 * i)) 255.
Definition le_bytes32 (v : Z) : list Z := [byte_at v 0; byte_at v 1; byte_at v 2; byte_at v 3].
Definition le_bytes16 (v : Z) : list Z := [byte_at v 0; byte_at v 1].
Definition le_u32 (b0 b1 b2 b3 : Z) : Z := b0 + 256 * b1 + 65536 * b2 + 16777216 * b3.
Definition le_u16 (b0 b1 : Z) : Z := b0 + 256 * b1.

(** ** Registers and opcodes ([vm.rs]) *)

Record Register := mkRegister { tag : Z; value : Z }.

Definition Register_default : Register := mkRegister 0 0.

(** The number sentinel tag. *)
Definition NUMBER_TAG : Z := 42.   (* 0x2A *)

Inductive Opcode :=
| HALT | LOAD_IMMEDIATE | LOAD_ARGUMENT | LOAD_LOCAL | STORE_LOCAL
| GET_FIELD | SET_FIELD | ADD | SUB | MUL | DIV
| LESS_THAN | LESS_OR_EQUAL | EQUAL | GREATER_OR_EQUAL | GREATER_THAN
| JUMP | JUMP_TRUE | JUMP_FALSE | PUSH | CALL | RETURN | INVALID.

(** [opcode as u8] ([#[repr(u8)]], declaration order). *)
Definition opcode_byte (o : Opcode) : Z :=
  match o with
  | HALT => 0 | LOAD_IMMEDIATE => 1 | LOAD_ARGUMENT => 2 | LOAD_LOCAL => 3
  | STORE_LOCAL => 4 | GET_FIELD => 5 | SET_FIELD => 6 | ADD => 7 | SUB => 8
  | MUL => 9 | DIV => 10 | LESS_THAN => 11 | LESS_OR_EQUAL => 12 | EQUAL => 13
  | GREATER_OR_EQUAL => 14 | GREATER_THAN => 15 | JUMP => 16 | JUMP_TRUE => 17
  | JUMP_FALSE => 18 | PUSH => 19 | CALL => 20 | RETURN => 21 | INVALID => 22
  end.

(** [impl From<u8> for Opcode]: bytes below [INVALID as u8] are transmuted,
    every other byte is [INVALID]. *)
Definition opcode_of_byte (b : Z) : Opcode :=
  match b with
  | 0 => HALT | 1 => LOAD_IMMEDIATE | 2 => LOAD_ARGUMENT | 3 => LOAD_LOCAL
  | 4 => STORE_LOCAL | 5 => GET_FIELD | 6 => SET_FIELD | 7 => ADD | 8 => SUB
  | 9 => MUL | 10 => DIV | 11 => LESS_THAN | 12 => LESS_OR_EQUAL | 13 => EQUAL
  | 14 => GREATER_OR_EQUAL | 15 => GREATER_THAN | 16 => JUMP | 17 => JUMP_TRUE
  | 18 => JUMP_FALSE | 19 => PUSH | 20 => CALL | 21 => RETURN
  | _ => INVALID
  end.

Definition NUM_REGISTERS : nat := 16.

(** ** Outcomes of running Rust code: a value, a panic, or running out of the
    fuel that bounds the interpreter. *)

Inductive outcome (A : Type) :=
| Finished (a : A)
| Panicked
| OutOfFuel.
Arguments Finished {A} a.
Arguments Panicked {A}.
Arguments OutOfFuel {A}.

Definition obind {A B} (m : outcome A) (k : A -> outcome B) : outcome B :=
  match m with
  | Finished a => k a
  | Panicked => Panicked
  | OutOfFuel => OutOfFuel
  end.

Notation "'let!' x ':=' m 'in' k" := (obind m (fun x => k))
  (at level 200, x pattern, m at level 100, k at level 200).

(** ** The host's value/object model, as the VM calls it *)

Record Host := mkHost {
  (** [raw_types::funcs::get_variable]: field lookup on an object handle. *)
  get_variable : Register -> Z -> Register;
  (** [proc::get_proc_by_id(id)] followed by [Proc::call]: [None] for an
      unknown id; the inner [None] for a call that returns an error. *)
  get_proc_by_id : Z -> option (list Register -> option Register)
}.

(** [struct VM]: the program table and the pid handed to new processes.
    (The source's [programs] table is never read or written.) *)
Record VM := mkVM {
  bytecodes : gmap Z (list Z);
  current_pid : Z;
  host : Host
}.

(** [struct Process]; the [Cursor<Vec<u8>>] is its buffer and position. *)
Record Process := mkProcess {
  registers : list Register;
  cursor_buf : list Z;
  cursor_pos : nat;
  args : list Register;
  locals : list Register;
  pid : Z;
  return_register_id : nat;
  call_arg_stack : list Register
}.

Definition Process_new (pid : Z) (bytecode : list Z) (args : list Register) : Process :=
  mkProcess (repeat Register_default NUM_REGISTERS) bytecode 0 args
            (repeat Register_default NUM_REGISTERS) pid 0 [].

Definition set_registers (p : Process) (r : list Register) : Process :=
  mkProcess r p.(cursor_buf) p.(cursor_pos) p.(args) p.(locals) p.(pid)
            p.(return_register_id) p.(call_arg_stack).
Definition set_locals (p : Process) (l : list Register) : Process :=
  mkProcess p.(registers) p.(cursor_buf) p.(cursor_pos) p.(args) l p.(pid)
            p.(return_register_id) p.(call_arg_stack).
Definition set_position (p : Process) (n : nat) : Process :=
  mkProcess p.(registers) p.(cursor_buf) n p.(args) p.(locals) p.(pid)
            p.(return_register_id) p.(call_arg_stack).
Definition set_return_register_id (p : Process) (n : nat) : Process :=
  mkProcess p.(registers) p.(cursor_buf) p.(cursor_pos) p.(args) p.(locals) p.(pid)
            n p.(call_arg_stack).
Definition set_call_arg_stack (p : Process) (st : list Register) : Process :=
  mkProcess p.(registers) p.(cursor_buf) p.(cursor_pos) p.(args) p.(locals) p.(pid)
            p.(return_register_id) st.

(** Indexing a fixed array or a [Vec]: out of range panics. *)
Definition get_reg (rs : list Register) (i : nat) : outcome Register :=
  match rs !! i with Some r => Finished r | None => Panicked end.
Definition set_reg (rs : list Register) (i : nat) (r : Register) : outcome (list Register) :=
  if decide (i < length rs)%nat then Finished (<[i := r]> rs) else Panicked.

(** [next_byte]: [self.cursor.read_u8().unwrap()]. *)
Definition next_byte (p : Process) : outcome (Z * Process) :=
  match p.(cursor_buf) !! p.(cursor_pos) with
  | Some b => Finished (b, set_position p (S p.(cursor_pos)))
  | None => Panicked
  end.

Definition next_opcode (p : Process) : outcome (Opcode * Process) :=
  let! (b, p) := next_byte p in Finished (opcode_of_byte b, p).

Definition read_register (p : Process) : outcome (nat * Process) :=
  let! (b, p) := next_byte p in Finished (Z.to_nat b, p).

Definition read_type (p : Process) : outcome (Z * Process) := next_byte p.

Definition read_value (p : Process) : outcome (Z * Process) :=
  let! (b0, p) := next_byte p in
  let! (b1, p) := next_byte p in
  let! (b2, p) := next_byte p in
  let! (b3, p) := next_byte p in
  Finished (le_u32 b0 b1 b2 b3, p).

Definition read_short (p : Process) : outcome (Z * Process) :=
  let! (b0, p) := next_byte p in
  let! (b1, p) := next_byte p in
  Finished (le_u16 b0 b1, p).

Definition get_return_value (p : Process) : outcome Register :=
  get_reg p.(registers) p.(return_register_id).

(** [Process::compare], on the payloads read as [f32]. *)
Definition compare (left right : Register) (op : Opcode) : bool :=
  let l := F32.from_bits left.(value) in
  let r := F32.from_bits right.(value) in
  match op, F32.partial_cmp l r with
  | LESS_THAN, Some Lt => true
  | LESS_OR_EQUAL, Some (Lt | Eq) => true
  | EQUAL, Some Eq => true
  | GREATER_OR_EQUAL, Some (Gt | Eq) => true
  | GREATER_THAN, Some Gt => true
  | _, _ => false
  end.

Definition math (op : Opcode) (l r : spec_float) : spec_float :=
  match op with
  | ADD => F32.add l r
  | SUB => F32.sub l r
  | MUL => F32.mul l r
  | _ => F32.div l r
  end.

(** The bits [do_math_op] stores: [(left OP right).to_bits()]. *)
Definition math_bits (op : Opcode) (lb rb : Z) : Z := F32.arith_bits (math op) lb rb.

(** [Process::do_math_op]. *)
Definition do_math_op (op : Opcode) (p : Process) : outcome Process :=
  let! (lefti, p) := read_register p in
  let! (righti, p) := read_register p in
  let! (desti, p) := read_register p in
  let! l := get_reg p.(registers) lefti in
  let! r := get_reg p.(registers) righti in
  let result := math_bits op l.(value) r.(value) in
  let! regs := set_reg p.(registers) desti (mkRegister NUMBER_TAG result) in
  Finished (set_registers p regs).

(** [Process::execute_one]: [true] is [Ok(())], [false] is [Err(())].
    [run] is [vm.run_program], the recursive call of [CALL]. *)
Definition execute_one (vm : VM) (run : Z -> list Register -> outcome Register)
    (p : Process) : outcome (bool * Process) :=
  let! (op, p) := next_opcode p in
  match op with
  | LOAD_IMMEDIATE =>
      let! (reg_idx, p) := read_register p in
      let! (typ, p) := read_type p in
      let! (val, p) := read_value p in
      let! regs := set_reg p.(registers) reg_idx (mkRegister typ val) in
      Finished (true, set_registers p regs)
  | LOAD_ARGUMENT =>
      let! (arg_index, p) := read_register p in
      let! (dest_index, p) := read_register p in
      let! arg := get_reg p.(args) arg_index in
      let! regs := set_reg p.(registers) dest_index arg in
      Finished (true, set_registers p regs)
  | LOAD_LOCAL =>
      let! (local_index, p) := read_register p in
      let! (dest_index, p) := read_register p in
      let! local := get_reg p.(locals) local_index in
      let! regs := set_reg p.(registers) dest_index local in
      Finished (true, set_registers p regs)
  | STORE_LOCAL =>
      let! (dest_index, p) := read_register p in
      let! (local_index, p) := read_register p in
      let! src := get_reg p.(registers) dest_index in
      let! ls := set_reg p.(locals) local_index src in
      Finished (true, set_locals p ls)
  | GET_FIELD =>
      let! (source_index, p) := read_register p in
      let! (field_name, p) := read_short p in
      let! (destination_index, p) := read_register p in
      let! source := get_reg p.(registers) source_index in
      let out := vm.(host).(get_variable) source field_name in
      let! regs := set_reg p.(registers) destination_index out in
      Finished (true, set_registers p regs)
  | ADD | SUB | MUL | DIV =>
      let! p := do_math_op op p in Finished (true, p)
  | LESS_THAN | LESS_OR_EQUAL | EQUAL | GREATER_OR_EQUAL | GREATER_THAN =>
      let! (lefti, p) := read_register p in
      let! (righti, p) := read_register p in
      let! (resulti, p) := read_register p in
      let! l := get_reg p.(registers) lefti in
      let! r := get_reg p.(registers) righti in
      let res := if compare l r op then F32.one_bits else F32.zero_bits in
      let! regs := set_reg p.(registers) resulti (mkRegister NUMBER_TAG res) in
      Finished (true, set_registers p regs)
  | JUMP =>
      let! (dest, p) := read_value p in
      Finished (true, set_position p (Z.to_nat dest))
  | JUMP_TRUE =>
      let! (reg, p) := read_register p in
      let! (dest, p) := read_value p in
      let! c := get_reg p.(registers) reg in
      if negb (c.(value) =? 0) then Finished (true, set_position p (Z.to_nat dest))
      else Finished (true, p)
  | JUMP_FALSE =>
      let! (reg, p) := read_register p in
      let! (dest, p) := read_value p in
      let! c := get_reg p.(registers) reg in
      if c.(value) =? 0 then Finished (true, set_position p (Z.to_nat dest))
      else Finished (true, p)
  | PUSH =>
      let! (arg_idx, p) := read_register p in
      let! a := get_reg p.(registers) arg_idx in
      Finished (true, set_call_arg_stack p (p.(call_arg_stack) ++ [a]))
  | CALL =>
      let call_args := p.(call_arg_stack) in
      let p := set_call_arg_stack p [] in
      let! (proc_id, p) := read_value p in
      let! (result_register, p) := read_register p in
      let! result := run proc_id call_args in
      let! regs := set_reg p.(registers) result_register result in
      Finished (true, set_registers p regs)
  | RETURN =>
      let! (rid, p) := read_register p in
      Finished (true, set_return_register_id p rid)
  | _ => Finished (false, p)
  end.

(** The native fallback of [VM::run_program]: the tag is cut to [u8] on the
    way to the host; both lookups are [unwrap]ped. *)
Definition to_host_value (a : Register) : Register :=
  mkRegister (Z.land a.(tag) 255) a.(value).

Definition native_call (vm : VM) (id : Z) (call_args : list Register) : outcome Register :=
  match vm.(host).(get_proc_by_id) id with
  | None => Panicked
  | Some f =>
      match f (map to_host_value call_args) with
      | None => Panicked
      | Some r => Finished r
      end
  end.

(** [VM::run_program] and [Process::execute]. [execute] ends with the
    [Err(())] of the first step that returns it; [run_program] ignores that
    result and reads the return register. *)
Fixpoint run_program (fuel : nat) (vm : VM) (id : Z) (call_args : list Register)
    {struct fuel} : outcome Register :=
  match fuel with
  | O => OutOfFuel
  | S fuel' =>
      match vm.(bytecodes) !! id with
      | Some bc =>
          let! p := execute fuel' vm (Process_new vm.(current_pid) bc call_args) in
          get_return_value p
      | None => native_call vm id call_args
      end
  end
with execute (fuel : nat) (vm : VM) (p : Process) {struct fuel} : outcome Process :=
  match fuel with
  | O => OutOfFuel
  | S fuel' =>
      let! (ok, p) := execute_one vm (run_program fuel' vm) p in
      if ok then execute fuel' vm p else Finished p
  end.

(** [VM::add_program]. *)
Definition add_program (vm : VM) (id : Z) (bytecode : list Z) : VM :=
  mkVM (<[id := bytecode]> vm.(bytecodes)) vm.(current_pid) vm.(host).

(** ** The DreamMaker syntax the compiler walks ([dm::ast]), with the
    constructors named after the source's [Enum::Variant] paths. Kinds the
    compiler never inspects are kept as a named [..._Other] case. *)

#[local] Set Warnings "-register-all".

Inductive BinaryOp :=
| BinaryOp_Pow | BinaryOp_Mul | BinaryOp_Div | BinaryOp_Mod | BinaryOp_Add
| BinaryOp_Sub | BinaryOp_Less | BinaryOp_Greater | BinaryOp_LessEq
| BinaryOp_GreaterEq | BinaryOp_Equiv | BinaryOp_NotEquiv | BinaryOp_Eq
| BinaryOp_NotEq | BinaryOp_BitAnd | BinaryOp_BitXor | BinaryOp_BitOr
| BinaryOp_LShift | BinaryOp_RShift | BinaryOp_And | BinaryOp_Or
| BinaryOp_In | BinaryOp_To.

Inductive UnaryOp :=
| UnaryOp_Neg | UnaryOp_Not | UnaryOp_BitNot
| UnaryOp_PreIncr | UnaryOp_PostIncr | UnaryOp_PreDecr | UnaryOp_PostDecr.

Inductive Follow :=
| Follow_Field (name : string)
| Follow_Other (kind : string).

Inductive Expression :=
| Expression_Base (unary : list UnaryOp) (term : Term) (follow : list Follow)
| Expression_BinaryOp (op : BinaryOp) (lhs rhs : Expression)
| Expression_Other (kind : string)
with Term :=
| Term_Int (n : Z)           (* an [i32] *)
| Term_Float (bits : Z)      (* an [f32], by its bit pattern *)
| Term_Ident (name : string)
| Term_Expr (e : Expression)
| Term_Other (kind : string).

Inductive Statement :=
| Statement_Expr (e : Expression)
| Statement_Return (e : option Expression)
| Statement_Var (name : string) (value : option Expression)
| Statement_If (arms : list (Expression * list Statement))
               (else_arm : option (list Statement))
| Statement_Other (kind : string).

(** A procedure: its parameter names and, when [Code::Present], its body. *)
Record Proc := mkProc {
  parameters : list string;
  code : option (list Statement)
}.

(** ** The compiler ([compiler.rs]) *)

(** The [Err] strings of the compiler, one constructor per [format!]. *)
Inductive CompileError :=
| UnsupportedStatement (s : Statement)
| UnimplementedExpression (e : Expression)
| UnimplementedTerm (t : Term)
| UnknownIdentifier (name : string)
| UnimplementedFollow (f : Follow).

(** [Result<_, String>], plus the [panic!] of an unimplemented operator. *)
Inductive cresult (A : Type) :=
| COk (a : A)
| CErr (e : CompileError)
| CPanic.
Arguments COk {A} a.
Arguments CErr {A} e.
Arguments CPanic {A}.

(** [struct Compiler]: the shared free-list behind [Arc<RefCell<_>>] is a
    single field, pushed to when a [TempRegister] is dropped. *)
Record CState := mkCState {
  bytecode : list Z;
  next_free_register : nat;
  free_registers : list nat;
  c_locals : gmap string nat;
  c_args : gmap string nat
}.

Definition CM (A : Type) : Type := CState -> cresult (A * CState).

Definition cret {A} (a : A) : CM A := fun s => COk (a, s).
Definition cbind {A B} (m : CM A) (k : A -> CM B) : CM B :=
  fun s => match m s with
           | COk (a, s') => k a s'
           | CErr e => CErr e
           | CPanic => CPanic
           end.
Definition cfail {A} (e : CompileError) : CM A := fun _ => CErr e.
Definition cpanic {A} : CM A := fun _ => CPanic.
Definition cget : CM CState := fun s => COk (s, s).
Definition cput (s : CState) : CM unit := fun _ => COk (tt, s).

Notation "'let*' x ':=' m 'in' k" := (cbind m (fun x => k))
  (at level 200, x pattern, m at level 100, k at level 200).

Definition set_bytecode (s : CState) (b : list Z) : CState :=
  mkCState b s.(next_free_register) s.(free_registers) s.(c_locals) s.(c_args).

(** [Vec::swap_remove(0)]: the first element is removed and the last one
    takes its place. *)
Definition swap_remove0 (l : list nat) : option (nat * list nat) :=
  match l with
  | [] => None
  | x :: rest =>
      match rev rest with
      | [] => Some (x, [])
      | y :: ys => Some (x, y :: rev ys)
      end
  end.

(** [Compiler::get_free_register]. *)
Definition get_free_register : CM nat := fun s =>
  match swap_remove0 s.(free_registers) with
  | Some (id, rest) =>
      COk (id, mkCState s.(bytecode) s.(next_free_register) rest s.(c_locals) s.(c_args))
  | None =>
      COk (s.(next_free_register),
           mkCState s.(bytecode) (S s.(next_free_register)) s.(free_registers)
                    s.(c_locals) s.(c_args))
  end.

(** [impl Drop for TempRegister]: push the id back on the free-list. *)
Definition release (id : nat) : CM unit := fun s =>
  COk (tt, mkCState s.(bytecode) s.(next_free_register) (s.(free_registers) ++ [id])
                    s.(c_locals) s.(c_args)).

(** [Compiler::emit]. *)
Definition emit (bytes : list Z) : CM unit := fun s =>
  COk (tt, set_bytecode s (s.(bytecode) ++ bytes)).

Definition bytecode_len : CM nat := fun s => COk (length s.(bytecode), s).

(** [to_id]: [self.id as u8]. *)
Definition to_id (id : nat) : Z := Z.of_nat id mod 256.

(** [self.bytecode[loc + i] = target[i]] for [i] in [0..4], [target] the
    little-endian bytes of [self.bytecode.len()]. *)
Definition patch_to_end (loc : nat) : CM unit := fun s =>
  let t := le_bytes32 (Z.of_nat (length s.(bytecode))) in
  let b := s.(bytecode) in
  let b := <[loc := nth 0 t 0]> b in
  let b := <[(loc + 1)%nat := nth 1 t 0]> b in
  let b := <[(loc + 2)%nat := nth 2 t 0]> b in
  let b := <[(loc + 3)%nat := nth 3 t 0]> b in
  COk (tt, set_bytecode s b).

Fixpoint patch_all_to_end (locs : list nat) : CM unit :=
  match locs with
  | [] => cret tt
  | l :: rest => let* _ := patch_to_end l in patch_all_to_end rest
  end.

Definition opcode_of_binop (op : BinaryOp) : option Opcode :=
  match op with
  | BinaryOp_Add => Some ADD
  | BinaryOp_Sub => Some SUB
  | BinaryOp_Mul => Some MUL
  | BinaryOp_Div => Some DIV
  | BinaryOp_Less => Some LESS_THAN
  | BinaryOp_LessEq => Some LESS_OR_EQUAL
  | BinaryOp_Eq => Some EQUAL
  | BinaryOp_GreaterEq => Some GREATER_OR_EQUAL
  | BinaryOp_Greater => Some GREATER_THAN
  | _ => None
  end.

Section Lowering.

(** [value::Value::from_string(name).value.data.id]: the host's interned
    string id of a field name. *)
Variable string_id : string -> Z.

(** The field follows of an identifier: [GET_FIELD] on the same register. *)
Fixpoint visit_follows (thing : nat) (follows : list Follow) : CM unit :=
  match follows with
  | [] => cret tt
  | Follow_Field name :: rest =>
      let sid := Z.land (string_id name) 65535 in
      let* _ := emit ([opcode_byte GET_FIELD; to_id thing] ++ le_bytes16 sid
                      ++ [to_id thing]) in
      visit_follows thing rest
  | (Follow_Other _ as f) :: _ => cfail (UnimplementedFollow f)
  end.

(** [visit_expression] (the [is_statement] flag of [visit_expression_impl]
    is never read) and [visit_term]. The result is the id of the
    [TempRegister] handed to the caller; the temporaries dropped inside are
    released in the order Rust drops them. *)
Fixpoint visit_expression (e : Expression) : CM nat :=
  match e with
  | Expression_Base _ term follow => visit_term term follow
  | Expression_BinaryOp op lhs rhs =>
      let* left_reg := visit_expression lhs in
      let* right_reg := visit_expression rhs in
      match opcode_of_binop op with
      | None => cpanic
      | Some oper =>
          let* result_reg := get_free_register in
          let* _ := emit [opcode_byte oper; to_id left_reg; to_id right_reg;
                          to_id result_reg] in
          let* _ := release right_reg in
          let* _ := release left_reg in
          cret result_reg
      end
  | Expression_Other _ => cfail (UnimplementedExpression e)
  end
with visit_term (t : Term) (follows : list Follow) : CM nat :=
  match t with
  | Term_Int n =>
      let* reg := get_free_register in
      let* _ := emit ([opcode_byte LOAD_IMMEDIATE; to_id reg; NUMBER_TAG]
                      ++ le_bytes32 (F32.to_bits (F32.of_i32 n))) in
      cret reg
  | Term_Float bits =>
      let* reg := get_free_register in
      let* _ := emit ([opcode_byte LOAD_IMMEDIATE; to_id reg; NUMBER_TAG]
                      ++ le_bytes32 bits) in
      cret reg
  | Term_Ident name =>
      let* s := cget in
      match s.(c_args) !! name, s.(c_locals) !! name with
      | Some reg_id, _ =>
          let* target := get_free_register in
          let* _ := emit [opcode_byte LOAD_ARGUMENT; to_id reg_id; to_id target] in
          let* _ := visit_follows target follows in
          cret target
      | None, Some reg_id =>
          let* target := get_free_register in
          let* _ := emit [opcode_byte LOAD_LOCAL; to_id reg_id; to_id target] in
          let* _ := visit_follows target follows in
          cret target
      | None, None => cfail (UnknownIdentifier name)
      end
  | Term_Expr e => visit_expression e
  | Term_Other _ => cfail (UnimplementedTerm t)
  end.

(** [visit_var]: the new slot is [self.locals.len()], inserted before the
    initializer is lowered. *)
Definition visit_var (name : string) (v : option Expression) : CM unit :=
  let* s := cget in
  let local_id := size s.(c_locals) in
  let* _ := cput (mkCState s.(bytecode) s.(next_free_register) s.(free_registers)
                           (<[name := local_id]> s.(c_locals)) s.(c_args)) in
  match v with
  | Some e =>
      let* src_reg := visit_expression e in
      let* _ := emit [opcode_byte STORE_LOCAL; to_id src_reg; Z.of_nat local_id mod 256] in
      release src_reg
  | None => cret tt
  end.

(** [visit_block], for a given statement lowering. *)
Fixpoint visit_each (visit : Statement -> CM unit) (b : list Statement) : CM unit :=
  match b with
  | [] => cret tt
  | s :: rest => let* _ := visit s in visit_each visit rest
  end.

(** The loop of [visit_if] over the arms: [has_else] is
    [else_arm.is_some()]; the result is [patch_after_else]. The condition's
    [TempRegister] lives until the end of its iteration. *)
Fixpoint visit_arms (visit_block : list Statement -> CM unit) (has_else : bool)
    (arms : list (Expression * list Statement)) (patch_after_else : list nat)
    : CM (list nat) :=
  match arms with
  | [] => cret patch_after_else
  | (condition, block) :: rest =>
      let* check_reg := visit_expression condition in
      let* _ := emit [opcode_byte JUMP_FALSE; to_id check_reg; 0; 0; 0; 0] in
      let* len := bytecode_len in
      let jump_location := (len - 4)%nat in
      let* _ := visit_block block in
      let* patches :=
        (if has_else then
           let* _ := emit [opcode_byte JUMP; 0; 0; 0; 0] in
           let* len' := bytecode_len in
           cret (patch_after_else ++ [(len' - 4)%nat])
         else cret patch_after_else) in
      let* _ := patch_to_end jump_location in
      let* _ := release check_reg in
      visit_arms visit_block has_else rest patches
  end.

(** [visit_if]. *)
Definition visit_if (visit_block : list Statement -> CM unit)
    (arms : list (Expression * list Statement)) (else_arm : option (list Statement))
    : CM unit :=
  let* patches := visit_arms visit_block (bool_decide (is_Some else_arm)) arms [] in
  match else_arm with
  | Some else_block =>
      let* _ := visit_block else_block in
      patch_all_to_end patches
  | None => cret tt
  end.

(** [visit_statement]. *)
Fixpoint visit_statement (st : Statement) : CM unit :=
  match st with
  | Statement_Expr e =>
      let* reg := visit_expression e in release reg
  | Statement_Return (Some e) =>
      let* return_reg := visit_expression e in
      let* _ := emit [opcode_byte RETURN; to_id return_reg] in
      release return_reg
  | Statement_Var name v => visit_var name v
  | Statement_If arms else_arm => visit_if (visit_each visit_statement) arms else_arm
  | _ => cfail (UnsupportedStatement st)
  end.

Definition visit_block : list Statement -> CM unit := visit_each visit_statement.

(** [Compiler::new]: parameter [i] is argument register [i]; [collect] keeps
    the last position of a repeated name. *)
Definition args_of_parameters (ps : list string) : gmap string nat :=
  fst (fold_left (fun '(m, i) p => (<[p := i]> m, S i)) ps (∅, 0%nat)).

Definition Compiler_new (proc : Proc) : CState :=
  mkCState [] 0 [] ∅ (args_of_parameters proc.(parameters)).

(** [Compiler::compile]: the bytecode, with no terminator appended. *)
Definition compile (proc : Proc) : cresult (list Z) :=
  match proc.(code) with
  | Some body =>
      match visit_block body (Compiler_new proc) with
      | COk (_, s) => COk s.(bytecode)
      | CErr e => CErr e
      | CPanic => CPanic
      end
  | None => COk []
  end.

End Lowering.

(** ** Auxiliary definitions used to state properties *)

(** The operand bytes of each opcode, as [execute_one] reads them. *)
Definition operand_count (o : Opcode) : nat :=
  match o with
  | LOAD_IMMEDIATE => 6
  | LOAD_ARGUMENT | LOAD_LOCAL | STORE_LOCAL => 2
  | GET_FIELD => 4
  | ADD | SUB | MUL | DIV
  | LESS_THAN | LESS_OR_EQUAL | EQUAL | GREATER_OR_EQUAL | GREATER_THAN => 3
  | JUMP => 4
  | JUMP_TRUE | JUMP_FALSE | CALL => 5
  | PUSH | RETURN => 1
  | HALT | SET_FIELD | INVALID => 0
  end.

(** The operands of an instruction that index the general register file. *)
Definition gp_register_operands (o : Opcode) (ops : list Z) : list Z :=
  match o with
  | LOAD_IMMEDIATE | STORE_LOCAL | JUMP_TRUE | JUMP_FALSE | PUSH | RETURN =>
      take 1 ops
  | LOAD_ARGUMENT | LOAD_LOCAL => drop 1 (take 2 ops)
  | GET_FIELD => take 1 ops ++ drop 3 (take 4 ops)
  | ADD | SUB | MUL | DIV
  | LESS_THAN | LESS_OR_EQUAL | EQUAL | GREATER_OR_EQUAL | GREATER_THAN =>
      take 3 ops
  | CALL => drop 4 (take 5 ops)
  | JUMP | HALT | SET_FIELD | INVALID => []
  end.

(** A linear sweep over a buffer, one instruction after the other. *)
Fixpoint disassemble_fuel (fuel : nat) (bc : list Z) : list (Opcode * list Z) :=
  match fuel, bc with
  | O, _ | _, [] => []
  | S fuel', b :: rest =>
      let o := opcode_of_byte b in
      (o, take (operand_count o) rest) :: disassemble_fuel fuel' (drop (operand_count o) rest)
  end.

Definition disassemble (bc : list Z) : list (Opcode * list Z) :=
  disassemble_fuel (length bc) bc.

(** A right-nested chain [1 + (1 + (... + 1))] with [n] additions. *)
Definition lit (n : Z) : Expression := Expression_Base [] (Term_Int n) [].

Fixpoint nested_sum (n : nat) : Expression :=
  match n with
  | O => lit 1
  | S n' => Expression_BinaryOp BinaryOp_Add (lit 1) (nested_sum n')
  end.

(** The bytes an [if]/[else if] chain lowers to, arm by arm, from buffer
    position [pos]: each arm is its condition's code, [JUMP_FALSE] on the
    condition register with the position right after the arm as target, the
    arm's block, and, when there is an [else], a [JUMP] whose four operand
    bytes are [jump_operand]. *)
Definition arm_end (pos : nat) (has_else : bool) (seg : list Z * Z * list Z) : nat :=
  let '(cond, _, blk) := seg in
  (pos + length cond + 6 + length blk + (if has_else then 5 else 0))%nat.




(** The VM's reading of a four-byte jump operand. *)
Definition decode_le32 (bs : list Z) : Z :=
  match bs with
  | [b0; b1; b2; b3] => le_u32 b0 b1 b2 b3
  | _ => -1
  end.


(** IEEE-754 comparison predicates ([compareQuietLess] and the like): every
    one of them is false when an operand is NaN. *)
Definition ieee_holds (op : Opcode) (x y : spec_float) : bool :=
  match op with
  | LESS_THAN => SFltb x y
  | LESS_OR_EQUAL => SFleb x y
  | EQUAL => SFeqb x y
  | GREATER_OR_EQUAL => SFleb y x
  | GREATER_THAN => SFltb y x
  | _ => false
  end.

(** The [HookType::VM] arm of [call_proc_by_id_hook] ([hooks.rs]): the
    arguments become registers, [run_program] runs, and the register it
    returns is wrapped as [Ok(Value)] with its tag cut to [u8]. [inl] is
    [Ok]; [inr] is the [Err(e)] that the dispatcher reports through
    [stack_trace], a DM run-time error. *)
Definition hook_vm_branch (fuel : nat) (vm : VM) (proc_id : Z) (register_args : list Register)
    : outcome (Register + string) :=
  let! ret := run_program fuel vm proc_id register_args in
  Finished (inl (mkRegister (Z.land ret.(tag) 255) ret.(value))).

(** A host that knows no procedure, and a VM with no program. *)
Definition null_host : Host := mkHost (fun r _ => r) (fun _ => None).
Definition empty_vm : VM := mkVM ∅ 0 null_host.

(** A [return] with no value, anywhere in a statement (inside [if] arms
    and [else] blocks included). *)
Fixpoint has_bare_return (st : Statement) : bool :=
  match st with
  | Statement_Return None => true
  | Statement_If arms else_arm =>
      existsb (fun a => existsb has_bare_return a.2) arms
      || match else_arm with Some b => existsb has_bare_return b | None => false end
  | _ => false
  end.

(** The outcome of a lowering that reaches a [return;]: when what comes
    before it lowers, the [return;] is the [Unsupported statement] error;
    otherwise the earlier error or panic stands. *)
Definition then_bare_return {A B} (r : cresult A) : cresult B :=
  match r with
  | COk _ => CErr (UnsupportedStatement (Statement_Return None))
  | CErr e => CErr e
  | CPanic => CPanic
  end.

(** The part of a block lowered before its first [return;]: the statements
    ahead of the first statement holding one, then that statement cut by
    [cut_stmt]. A block without [return;] is kept whole. *)
Fixpoint cut_with (cut_stmt : Statement -> list Statement) (b : list Statement)
    : list Statement :=
  match b with
  | [] => []
  | x :: r => if has_bare_return x then cut_stmt x else x :: cut_with cut_stmt r
  end.

(** The arms of an [if] up to the first arm whose block holds a [return;],
    that block cut; [None] when no arm holds one. *)
Fixpoint cut_arms_with (cut_stmt : Statement -> list Statement)
    (arms : list (Expression * list Statement))
    : option (list (Expression * list Statement)) :=
  match arms with
  | [] => None
  | (c, b) :: r =>
      if existsb has_bare_return b then Some [(c, cut_with cut_stmt b)]
      else option_map (cons (c, b)) (cut_arms_with cut_stmt r)
  end.

(** The part of a statement lowered before its first [return;]. For an [if]
    whose arm holds the [return;], the arms after that one are dropped and
    an [else] becomes empty (it still makes each arm end in a [JUMP]); for
    an [if] whose [else] block holds it, that block is cut. *)
Fixpoint before_bare_return (st : Statement) : list Statement :=
  match st with
  | Statement_Return None => []
  | Statement_If arms else_arm =>
      match cut_arms_with before_bare_return arms with
      | Some arms' => [Statement_If arms' (option_map (fun _ => []) else_arm)]
      | None =>
          match else_arm with
          | Some eb => [Statement_If arms (Some (cut_with before_bare_return eb))]
          | None => [st]
          end
      end
  | _ => [st]
  end.

Definition cut_block : list Statement -> list Statement := cut_with before_bare_return.


(** The free-list invariant: the free-list together with the ids held by
    live [TempRegister]s is a permutation of [0 .. next_free_register - 1]. *)
Definition free_inv (held : list nat) (s : CState) : Prop :=
  free_registers s ++ held ≡ₚ seq 0 (next_free_register s).

Definition alloc_same (s s' : CState) : Prop :=
  free_registers s' = free_registers s /\ next_free_register s' = next_free_register s.

(** ** Induction over statements, through the nested blocks *)

Section StatementInd.
Variable P : Statement -> Prop.
Hypothesis HExpr : forall e, P (Statement_Expr e).
Hypothesis HReturn : forall e, P (Statement_Return e).
Hypothesis HVar : forall name v, P (Statement_Var name v).
Hypothesis HIf : forall arms else_arm,
  Forall (fun a => Forall P a.2) arms ->
  match else_arm with Some b => Forall P b | None => True end ->
  P (Statement_If arms else_arm).
Hypothesis HOther : forall k, P (Statement_Other k).

Fixpoint Statement_ind' (st : Statement) : P st :=
  let block_ok := fix block_ok (b : list Statement) : Forall P b :=
    match b with
    | [] => @List.Forall_nil _ P
    | x :: r => @List.Forall_cons _ P x r (Statement_ind' x) (block_ok r)
    end in
  match st with
  | Statement_Expr e => HExpr e
  | Statement_Return e => HReturn e
  | Statement_Var name v => HVar name v
  | Statement_If arms else_arm =>
      HIf arms else_arm
        ((fix arms_ok (l : list (Expression * list Statement))
            : Forall (fun a => Forall P a.2) l :=
            match l with
            | [] => @List.Forall_nil _ _
            | (c, b) :: r => @List.Forall_cons _ (fun a => Forall P a.2) (c, b) r
                               (block_ok b) (arms_ok r)
            end) arms)
        (match else_arm as o return match o with Some b => Forall P b | None => True end with
         | Some b => block_ok b
         | None => I
         end)
  | Statement_Other k => HOther k
  end.
End StatementInd.


(** ** What the compiler reads of an expression: [visit_expression_impl]
    binds the [unary] operators of an [Expression::Base] but never uses
    them, and [visit_term] walks the [follow] list only for an identifier.
    [erase_expr] drops exactly those parts. *)

Fixpoint erase_expr (e : Expression) : Expression :=
  match e with
  | Expression_Base _ t f =>
      Expression_Base [] (erase_term t) (match t with Term_Ident _ => f | _ => [] end)
  | Expression_BinaryOp op l r => Expression_BinaryOp op (erase_expr l) (erase_expr r)
  | Expression_Other k => Expression_Other k
  end
with erase_term (t : Term) : Term :=
  match t with
  | Term_Expr e => Term_Expr (erase_expr e)
  | _ => t
  end.

(** ** Proc hooks ([hooks.rs]) *)

(** [enum HookFailure]. *)
Inductive HookFailure := NotInitialized | ProcNotFound | AlreadyHooked | UnknownFailure.

(** [type ProcHook]: called with [src], [usr] and the argument vector (the
    [DMContext] carries no state the hook tables see); [inl] is [Ok(value)],
    [inr] the message of an [Err(runtime)]. The argument vector is dropped
    right after the call, so what the hook does to it is not observable. *)
Definition ProcHook : Type := Register -> Register -> list Register -> Register + string.

(** [enum HookType]. *)
Inductive HookType :=
| HookType_Rust (f : ProcHook)
| HookType_VM.

(** The two thread-locals: [PROC_HOOKS] (proc id to hook) and [HOOK_VM].
    The one-time [init] behind [PROC_HOOKS_INIT] installs the detour and
    touches neither of them. *)
Record Hooks := mkHooks {
  PROC_HOOKS : gmap Z HookType;
  HOOK_VM : VM
}.

(** [hook_by_id]: [Entry::Vacant] inserts the Rust hook, [Entry::Occupied]
    is [Err(AlreadyHooked)]. *)
Definition hook_by_id (h : Hooks) (id : Z) (hook : ProcHook) : (unit + HookFailure) * Hooks :=
  match PROC_HOOKS h !! id with
  | None => (inl tt, mkHooks (<[id := HookType_Rust hook]> (PROC_HOOKS h)) (HOOK_VM h))
  | Some _ => (inr AlreadyHooked, h)
  end.

(** [hook_by_id_with_bytecode_dont_use_this]: a vacant entry becomes
    [HookType::VM] and the bytecode is added to [HOOK_VM]; for an occupied
    entry the [Err(AlreadyHooked)] is built and discarded. *)
Definition hook_by_id_with_bytecode_dont_use_this (h : Hooks) (id : Z) (hook : list Z) : Hooks :=
  match PROC_HOOKS h !! id with
  | None => mkHooks (<[id := HookType_VM]> (PROC_HOOKS h)) (add_program (HOOK_VM h) id hook)
  | Some _ => h
  end.

(** [hook(name, hook)]; [get_proc] is [proc::get_proc] followed by [.id]. *)
Definition hook (get_proc : string -> option Z) (h : Hooks) (name : string) (f : ProcHook)
    : (unit + HookFailure) * Hooks :=
  match get_proc name with
  | Some id => hook_by_id h id f
  | None => (inr ProcNotFound, h)
  end.

(** What [call_proc_by_id_hook] does with the call: return a value, call
    [src.stack_trace(message)] and return null, or hand the call to the
    original [call_proc_by_id] through the trampoline. *)
Inductive HookResult :=
| Hook_Returned (r : Register)
| Hook_StackTrace (msg : string)
| Hook_Original.

(** [call_proc_by_id_hook]. The arguments are raw values; their
    [(tag, data)] pairs are the registers the VM arm builds from them. *)
Definition call_proc_by_id_hook (fuel : nat) (h : Hooks) (usr : Register) (proc_id : Z)
    (src : Register) (args : list Register) : outcome HookResult :=
  match PROC_HOOKS h !! proc_id with
  | Some hk =>
      let! result :=
        match hk with
        | HookType_Rust func => Finished (func src usr args)
        | HookType_VM => hook_vm_branch fuel (HOOK_VM h) proc_id args
        end in
      match result with
      | inl r => Finished (Hook_Returned r)
      | inr e => Finished (Hook_StackTrace e)
      end
  | None => Finished Hook_Original
  end.

(** A sequence of registrations through the two public entry points, as a
    library's start-up code makes them; the result of [hook_by_id] is
    dropped, as [hook_by_id_with_bytecode_dont_use_this] drops its own. *)
Inductive HookCall :=
| Call_hook_by_id (id : Z) (f : ProcHook)
| Call_hook_by_id_with_bytecode (id : Z) (bc : list Z).

Definition hook_call (h : Hooks) (c : HookCall) : Hooks :=
  match c with
  | Call_hook_by_id id f => (hook_by_id h id f).2
  | Call_hook_by_id_with_bytecode id bc => hook_by_id_with_bytecode_dont_use_this h id bc
  end.

Definition hook_calls (h : Hooks) (cs : list HookCall) : Hooks := fold_left hook_call cs h.

Definition call_id (c : HookCall) : Z :=
  match c with Call_hook_by_id id _ | Call_hook_by_id_with_bytecode id _ => id end.

Definition call_hook_type (c : HookCall) : HookType :=
  match c with
  | Call_hook_by_id _ f => HookType_Rust f
  | Call_hook_by_id_with_bytecode _ _ => HookType_VM
  end.

(** The first registration in [cs] for [id]. *)
Fixpoint first_call (id : Z) (cs : list HookCall) : option HookCall :=
  match cs with
  | [] => None
  | c :: cs' => if decide (call_id c = id) then Some c else first_call id cs'
  end.

(** ** Lemmas on the compiler monad *)

Lemma cbind_ok_inv {A B} (m : CM A) (k : A -> CM B) s b s' :
  cbind m k s = COk (b, s') -> exists a s1, m s = COk (a, s1) /\ k a s1 = COk (b, s').
Proof. unfold cbind. destruct (m s) as [[a s1]| |]; eauto; discriminate. Qed.

Lemma cret_ok_inv {A} (a b : A) s s' : cret a s = COk (b, s') -> b = a /\ s' = s.
Proof. unfold cret. intros H. inversion H. auto. Qed.

Ltac inv_ok :=
  repeat match goal with
  | H : cbind _ _ _ = COk _ |- _ =>
      let a := fresh "a" in let s1 := fresh "s" in let Hm := fresh "Hm" in
      apply cbind_ok_inv in H; destruct H as (a & s1 & Hm & H)
  | H : cret _ _ = COk _ |- _ =>
      apply cret_ok_inv in H; destruct H as [? ?]; subst
  | H : cfail _ _ = COk _ |- _ => discriminate H
  | H : cpanic _ = COk _ |- _ => discriminate H
  | H : cget ?s = COk _ |- _ => unfold cget in H; inversion H; subst; clear H
  | H : bytecode_len ?s = COk _ |- _ => unfold bytecode_len in H; inversion H; subst; clear H
  | H : cput _ _ = COk _ |- _ => unfold cput in H; inversion H; subst; clear H
  end.









Scheme Expression_mut := Induction for Expression Sort Prop
with Term_mut := Induction for Term Sort Prop.
Combined Scheme Expression_Term_mut from Expression_mut, Term_mut.



(** ** The free-list invariant *)

Lemma free_inv_perm held held' s :
  held ≡ₚ held' -> free_inv held s -> free_inv held' s.
Proof. unfold free_inv. intros P H. by rewrite <- P. Qed.

Lemma free_inv_alloc_same held s s' :
  alloc_same s s' -> free_inv held s -> free_inv held s'.
Proof. unfold free_inv, alloc_same. intros [-> ->]. auto. Qed.

Lemma swap_remove0_some l x rest : swap_remove0 l = Some (x, rest) -> l ≡ₚ x :: rest.
Proof.
  destruct l as [|y l]; simpl; [discriminate|].
  destruct (rev l) as [|z zs] eqn:E; intros H; inversion H; subst; clear H.
  - apply (f_equal (fun l0 => rev l0)) in E. rewrite rev_involutive in E. subst. done.
  - apply (f_equal (fun l0 => rev l0)) in E. rewrite rev_involutive in E. simpl in E. subst.
    constructor. solve_Permutation.
Qed.

Lemma swap_remove0_none l : swap_remove0 l = None -> l = [].
Proof. destruct l; simpl; [done|]. destruct (rev l); discriminate. Qed.

Lemma get_free_register_inv held s r s' :
  get_free_register s = COk (r, s') -> free_inv held s -> free_inv (held ++ [r]) s'.
Proof.
  unfold get_free_register, free_inv.
  destruct (swap_remove0 (free_registers s)) as [[x rest]|] eqn:E;
    intros H; inversion H; subst; clear H; simpl; intros I.
  - apply swap_remove0_some in E. rewrite <- I, E. solve_Permutation.
  - apply swap_remove0_none in E. rewrite E in *. simpl in *.
    change (0%nat :: seq 1 (next_free_register s))
      with (seq 0 (S (next_free_register s))).
    rewrite seq_S, <- I. done.
Qed.

Lemma release_inv held r s u s' :
  release r s = COk (u, s') -> free_inv (held ++ [r]) s -> free_inv held s'.
Proof.
  unfold release, free_inv. intros H; inversion H; subst; simpl. intros I.
  rewrite <- I. solve_Permutation.
Qed.

Lemma emit_alloc bs s u s' : emit bs s = COk (u, s') -> alloc_same s s'.
Proof. unfold emit. intros H; inversion H; subst. split; reflexivity. Qed.

Lemma patch_to_end_alloc l s u s' : patch_to_end l s = COk (u, s') -> alloc_same s s'.
Proof. unfold patch_to_end. intros H; inversion H; subst. split; reflexivity. Qed.

Lemma visit_follows_alloc sid thing fs s u s' :
  visit_follows sid thing fs s = COk (u, s') -> alloc_same s s'.
Proof.
  revert s. induction fs as [|f fs IH]; intros s H; simpl in H.
  - inv_ok. split; reflexivity.
  - destruct f; inv_ok. apply emit_alloc in Hm. apply IH in H.
    destruct Hm, H; split; congruence.
Qed.

Lemma visit_expression_inv sid :
  (forall e s r s' held, visit_expression sid e s = COk (r, s') ->
     free_inv held s -> free_inv (held ++ [r]) s') /\
  (forall t fs s r s' held, visit_term sid t fs s = COk (r, s') ->
     free_inv held s -> free_inv (held ++ [r]) s').
Proof.
  apply Expression_Term_mut; intros; simpl in *; inv_ok.
  - eauto.
  - destruct (opcode_of_binop op); inv_ok.
    apply (H _ _ _ held) in Hm; [|done].
    apply (H0 _ _ _ (held ++ [a])) in Hm0; [|done].
    apply (get_free_register_inv (held ++ [a] ++ [a0])) in Hm1;
      [|by rewrite app_assoc].
    eapply free_inv_alloc_same in Hm1; [|eapply emit_alloc; eauto].
    eapply (release_inv (held ++ [a] ++ [a1])) in Hm3;
      [|eapply free_inv_perm; [|exact Hm1]; solve_Permutation].
    eapply (release_inv (held ++ [a1])) in Hm4;
      [|eapply free_inv_perm; [|exact Hm3]; solve_Permutation].
    done.
  - eapply free_inv_alloc_same; [eapply emit_alloc; eauto|].
    eapply get_free_register_inv; eauto.
  - eapply free_inv_alloc_same; [eapply emit_alloc; eauto|].
    eapply get_free_register_inv; eauto.
  - repeat case_match; inv_ok;
      (eapply free_inv_alloc_same; [eapply visit_follows_alloc; eauto|]);
      (eapply free_inv_alloc_same; [eapply emit_alloc; eauto|]);
      eapply get_free_register_inv; eauto.
  - eauto.
Qed.

(** ** The free-list invariant across statements *)

Lemma visit_each_inv (vs : Statement -> CM unit) (b : list Statement) :
  Forall (fun st => forall s u s' held, vs st s = COk (u, s') ->
            free_inv held s -> free_inv held s') b ->
  forall s u s' held, visit_each vs b s = COk (u, s') -> free_inv held s -> free_inv held s'.
Proof.
  induction 1 as [|st b Hst Hb IH]; intros s u s' held H I; simpl in H; inv_ok; eauto.
Qed.

Lemma patch_all_to_end_alloc locs s u s' :
  patch_all_to_end locs s = COk (u, s') -> alloc_same s s'.
Proof.
  revert s. induction locs as [|l locs IH]; intros s H; simpl in H; inv_ok.
  - split; reflexivity.
  - apply patch_to_end_alloc in Hm. apply IH in H. destruct Hm, H; split; congruence.
Qed.

Ltac step_inv :=
  repeat match goal with
  | I : free_inv _ ?s, E : emit _ ?s = COk _ |- _ =>
      eapply free_inv_alloc_same in I; [|eapply emit_alloc; exact E]; clear E
  | I : free_inv _ ?s, E : patch_to_end _ ?s = COk _ |- _ =>
      eapply free_inv_alloc_same in I; [|eapply patch_to_end_alloc; exact E]; clear E
  | I : free_inv _ ?s, E : patch_all_to_end _ ?s = COk _ |- _ =>
      eapply free_inv_alloc_same in I; [|eapply patch_all_to_end_alloc; exact E]; clear E
  | I : free_inv _ ?s, E : release _ ?s = COk _ |- _ =>
      eapply release_inv in I; [|exact E]; clear E
  | I : free_inv _ ?s, E : visit_expression _ _ ?s = COk _ |- _ =>
      eapply (proj1 (visit_expression_inv _)) in E; [|exact I]; clear I
  end.

Lemma visit_arms_inv sid vb he arms :
  Forall (fun a => forall s u s' held, vb a.2 s = COk (u, s') ->
            free_inv held s -> free_inv held s') arms ->
  forall patches s patches' s' held,
  visit_arms sid vb he arms patches s = COk (patches', s') ->
  free_inv held s -> free_inv held s'.
Proof.
  induction 1 as [|[c b] arms Hb Harms IH]; intros patches s patches' s' held H I;
    simpl in H; inv_ok; [done|].
  simpl in Hb. destruct he; inv_ok; step_inv;
  (match goal with E : vb b ?x = COk _, J : free_inv _ ?x |- _ =>
     eapply Hb in J; [|exact E]; clear E end);
  step_inv; eauto.
Qed.

Lemma visit_statement_inv sid (st : Statement) :
  forall s u s' held, visit_statement sid st s = COk (u, s') ->
  free_inv held s -> free_inv held s'.
Proof.
  induction st as [e|e|name v|arms els Harms Hels|k] using Statement_ind';
    intros s u s' held H I; simpl in H.
  - inv_ok. step_inv. done.
  - destruct e as [e|]; inv_ok. step_inv. done.
  - unfold visit_var in H. inv_ok.
    match type of H with _ ?st = _ =>
      assert (I1 : free_inv held st) by exact I end. clear I.
    destruct v as [e|]; inv_ok; step_inv; done.
  - unfold visit_if in H. inv_ok.
    eapply visit_arms_inv in Hm; [| |exact I].
    2:{ eapply Forall_impl; [exact Harms|]. intros [c b] Hb. simpl in *.
        intros. eapply visit_each_inv; eauto. }
    clear I. destruct els as [b|]; inv_ok; [|done].
    eapply visit_each_inv in Hm; [|exact Hels|eassumption]. step_inv. done.
  - inv_ok.
Qed.

(** ** Layout of the lowered code *)





Lemma arm_end_ge pos he cond c blk :
  (pos + length cond + 6 + length blk <= arm_end pos he (cond, c, blk))%nat.
Proof. simpl. destruct he; lia. Qed.



Lemma decode_le32_le_bytes32 v : 0 <= v < 2 ^ 32 -> decode_le32 (le_bytes32 v) = v.
Proof.
  intros Hv. unfold decode_le32, le_bytes32, le_u32, byte_at.
  change 255 with (Z.ones 8). rewrite !Z.land_ones by lia.
  rewrite !Z.shiftr_div_pow2 by lia.
  change (2 ^ 8) with 256. change (2 ^ (8 * 1)) with 256.
  change (2 ^ (8 * 0)) with 1. rewrite Z.div_1_r.
  change (2 ^ (8 * 2)) with 65536. change (2 ^ (8 * 3)) with 16777216.
  change (2 ^ 32) with 4294967296 in Hv.
  assert (E2 : v / 65536 = v / 256 / 256) by (rewrite Z.div_div; reflexivity || lia).
  assert (E3 : v / 16777216 = v / 256 / 256 / 256)
    by (rewrite !Z.div_div; reflexivity || lia).
  rewrite E2, E3.
  pose proof (Z.div_mod v 256 ltac:(lia)).
  pose proof (Z.div_mod (v / 256) 256 ltac:(lia)).
  pose proof (Z.div_mod (v / 256 / 256) 256 ltac:(lia)).
  assert (v / 256 / 256 / 256 < 256).
  { rewrite !Z.div_div by lia. apply Z.div_lt_upper_bound; lia. }
  assert (0 <= v / 256 / 256 / 256) by (apply Z.div_pos; [apply Z.div_pos; [apply Z.div_pos|]|]; lia).
  rewrite (Z.mod_small (v / 256 / 256 / 256)) by lia.
  remember (v / 256 / 256 / 256) as q3. remember ((v / 256 / 256) mod 256) as r2.
  remember (v / 256 / 256) as q2. remember ((v / 256) mod 256) as r1.
  remember (v / 256) as q1. remember (v mod 256) as r0.
  clear - H H0 H1. lia.
Qed.











(** ** Steps of the interpreter *)

Lemma next_byte_at p n b :
  cursor_buf p !! n = Some b ->
  next_byte (set_position p n) = Finished (b, set_position p (S n)).
Proof. intros H. unfold next_byte. simpl. rewrite H. reflexivity. Qed.

Lemma set_position_eta p : set_position p (cursor_pos p) = p.
Proof. by destruct p. Qed.

Lemma SFcompare_swap x y : SFcompare y x = option_map CompOpp (SFcompare x y).
Proof.
  destruct x as [sx|sx| |sx mx ex], y as [sy|sy| |sy my ey]; simpl; try reflexivity;
    try (destruct sx; reflexivity); try (destruct sy; reflexivity);
    try (destruct sx, sy; reflexivity).
  pose proof (Pos.compare_cont_antisym mx my Eq) as A. simpl in A.
  destruct sx, sy; simpl; try reflexivity;
    rewrite (Z.compare_antisym ex ey); destruct (ex ?= ey)%Z; simpl; try reflexivity;
    rewrite <- A; try reflexivity.
  all: rewrite CompOpp_involutive; reflexivity.
Qed.

Lemma compare_ieee l r op :
  op = LESS_THAN \/ op = LESS_OR_EQUAL \/ op = EQUAL \/ op = GREATER_OR_EQUAL \/
  op = GREATER_THAN ->
  compare l r op = ieee_holds op (F32.from_bits l.(value)) (F32.from_bits r.(value)).
Proof.
  intros Hop. unfold compare, ieee_holds, F32.partial_cmp, SFltb, SFleb, SFeqb.
  rewrite (SFcompare_swap (F32.from_bits (value l))).
  destruct Hop as [-> | [-> | [-> | [-> | ->]]]];
    destruct (SFcompare _ _) as [[]|]; reflexivity.
Qed.

Lemma compare_nan l r op :
  F32.is_nan (F32.from_bits l.(value)) = true \/ F32.is_nan (F32.from_bits r.(value)) = true ->
  compare l r op = false.
Proof.
  unfold compare, F32.partial_cmp, F32.is_nan.
  destruct (F32.from_bits (value l)), (F32.from_bits (value r)); intros [H|H];
    try discriminate H; destruct op; reflexivity.
Qed.

Lemma is_nan_from_bits b : F32.is_nan (F32.from_bits b) = F32.is_nan_bits b.
Proof.
  unfold F32.from_bits, F32.is_nan_bits, F32.is_nan. cbn zeta.
  destruct (Z.land (Z.shiftr b 23) 255 =? 0) eqn:E0.
  - apply Z.eqb_eq in E0. rewrite E0. destruct (Z.land b (2 ^ 23 - 1) =? 0); reflexivity.
  - destruct (Z.land (Z.shiftr b 23) 255 =? 255), (Z.land b (2 ^ 23 - 1) =? 0); reflexivity.
Qed.

Lemma quiet_is_nan_bits b : F32.is_nan_bits b = true -> F32.is_nan_bits (F32.quiet b) = true.
Proof.
  unfold F32.is_nan_bits, F32.quiet. rewrite Z.shiftr_lor.
  change (Z.shiftr (2 ^ 22) 23) with 0. rewrite Z.lor_0_r.
  intros H. apply andb_true_iff in H as [H1 _]. rewrite H1. simpl.
  destruct (Z.land (Z.lor b (2 ^ 22)) (2 ^ 23 - 1) =? 0) eqn:E; [|reflexivity].
  apply Z.eqb_eq in E.
  assert (T : Z.testbit (Z.land (Z.lor b (2 ^ 22)) (2 ^ 23 - 1)) 22 = true).
  { rewrite Z.land_spec, Z.lor_spec, Z.pow2_bits_true by lia.
    rewrite orb_true_r. reflexivity. }
  rewrite E in T. discriminate T.
Qed.

Lemma math_nan_l op y : math op S754_nan y = S754_nan.
Proof. destruct op; reflexivity. Qed.

Lemma math_nan_r op x : math op x S754_nan = S754_nan.
Proof. destruct op, x; reflexivity. Qed.

(** [math_bits] is the IEEE-754 result's encoding unless that result is a
    NaN, and a NaN encoding when it is. *)
Lemma math_bits_not_nan op lb rb :
  F32.is_nan (math op (F32.from_bits lb) (F32.from_bits rb)) = false ->
  math_bits op lb rb = F32.to_bits (math op (F32.from_bits lb) (F32.from_bits rb)).
Proof.
  intros H. unfold math_bits, F32.arith_bits.
  destruct (F32.is_nan_bits lb) eqn:El.
  { rewrite <- is_nan_from_bits in El. unfold F32.is_nan in El.
    destruct (F32.from_bits lb); try discriminate El. rewrite math_nan_l in H. discriminate H. }
  destruct (F32.is_nan_bits rb) eqn:Er.
  { rewrite <- is_nan_from_bits in Er. unfold F32.is_nan in Er.
    destruct (F32.from_bits rb); try discriminate Er. rewrite math_nan_r in H. discriminate H. }
  destruct (math op (F32.from_bits lb) (F32.from_bits rb)); try reflexivity. discriminate H.
Qed.

Lemma math_bits_nan op lb rb :
  F32.is_nan (math op (F32.from_bits lb) (F32.from_bits rb)) = true ->
  F32.is_nan (F32.from_bits (math_bits op lb rb)) = true.
Proof.
  intros H. rewrite is_nan_from_bits. unfold math_bits, F32.arith_bits.
  destruct (F32.is_nan_bits lb) eqn:El; [apply quiet_is_nan_bits; exact El|].
  destruct (F32.is_nan_bits rb) eqn:Er; [apply quiet_is_nan_bits; exact Er|].
  destruct (math op (F32.from_bits lb) (F32.from_bits rb)); try discriminate H.
  reflexivity.
Qed.

Lemma div_by_zero_bits lb z :
  z = 0 \/ z = 2 ^ 31 ->
  math_bits DIV lb z = 2139095040 \/ math_bits DIV lb z = 4286578688 \/
  F32.is_nan (F32.from_bits (math_bits DIV lb z)) = true.
Proof.
  intros Hz. destruct (F32.is_nan (math DIV (F32.from_bits lb) (F32.from_bits z))) eqn:En.
  { right; right. apply math_bits_nan. exact En. }
  rewrite (math_bits_not_nan _ _ _ En).
  destruct Hz as [-> | ->]; [change (F32.from_bits 0) with (S754_zero false) in *
                            |change (F32.from_bits (2 ^ 31)) with (S754_zero true) in *];
  unfold math, F32.div in *; destruct (F32.from_bits lb) as [[]|[]| |[] mx ex];
    simpl in *; auto; discriminate En.
Qed.

(** C4: [ADD], [SUB], [MUL] and [DIV] write, tagged with the number
    sentinel [0x2A], the bits of the binary32 result of the operation on the
    two operand payloads read as [f32], whatever the operands' tags; the
    step succeeds and moves the cursor past the instruction. These bits are
    the encoding of the IEEE-754 sum, difference, product or quotient when
    that is not a NaN, and a NaN encoding when it is (IEEE-754 leaves the
    NaN's payload open; the model follows x86 SSE). A divisor payload of
    [+0.0] or [-0.0] makes the quotient [+inf], [-inf] or a NaN. *)
Theorem math_op_ieee vm run p op bl br bd l r :
  op = ADD \/ op = SUB \/ op = MUL \/ op = DIV ->
  cursor_buf p !! cursor_pos p = Some (opcode_byte op) ->
  cursor_buf p !! (cursor_pos p + 1)%nat = Some bl ->
  cursor_buf p !! (cursor_pos p + 2)%nat = Some br ->
  cursor_buf p !! (cursor_pos p + 3)%nat = Some bd ->
  registers p !! Z.to_nat bl = Some l ->
  registers p !! Z.to_nat br = Some r ->
  (Z.to_nat bd < length (registers p))%nat ->
  execute_one vm run p =
    Finished (true, set_registers (set_position p (cursor_pos p + 4))
      (<[Z.to_nat bd := mkRegister NUMBER_TAG (math_bits op l.(value) r.(value))]>
        (registers p))) /\
  (forall lb rb, F32.is_nan (math op (F32.from_bits lb) (F32.from_bits rb)) = false ->
     math_bits op lb rb = F32.to_bits (math op (F32.from_bits lb) (F32.from_bits rb))) /\
  (forall lb rb, F32.is_nan (math op (F32.from_bits lb) (F32.from_bits rb)) = true ->
     F32.is_nan (F32.from_bits (math_bits op lb rb)) = true) /\
  (op = DIV -> forall lb z, z = 0 \/ z = 2 ^ 31 ->
     math_bits op lb z = 2139095040 \/ math_bits op lb z = 4286578688 \/
     F32.is_nan (F32.from_bits (math_bits op lb z)) = true).
Proof.
  intros Hop H0 H1 H2 H3 Hl Hr Hd.
  split; [|split; [apply math_bits_not_nan|split; [apply math_bits_nan|]]];
    [|intros ->; apply div_by_zero_bits].
  rewrite Nat.add_1_r in H1.
  replace (cursor_pos p + 2)%nat with (S (S (cursor_pos p))) in H2 by lia.
  replace (cursor_pos p + 3)%nat with (S (S (S (cursor_pos p)))) in H3 by lia.
  replace (cursor_pos p + 4)%nat with (S (S (S (S (cursor_pos p))))) by lia.
  rewrite <- (set_position_eta p) at 1.
  unfold execute_one, next_opcode. rewrite (next_byte_at _ _ _ H0). cbn [obind].
  destruct Hop as [Hop | [Hop | [Hop | Hop]]]; subst op;
    cbn -[math_bits].
  all: unfold do_math_op, read_register.
  all: rewrite (next_byte_at _ _ _ H1); cbn [obind];
    rewrite (next_byte_at _ _ _ H2); cbn [obind];
    rewrite (next_byte_at _ _ _ H3); cbn [obind].
  all: unfold get_reg, set_reg; cbn [registers set_position]; rewrite Hl, Hr; cbn [obind].
  all: rewrite decide_True by exact Hd; reflexivity.
Qed.

Lemma math_op_ieee_witness :
  execute_one empty_vm (fun _ _ => Panicked) (Process_new 0 [10; 0; 1; 2] []) =
    Finished (true, set_registers (set_position (Process_new 0 [10; 0; 1; 2] []) (0 + 4))
      (<[Z.to_nat 2 := mkRegister NUMBER_TAG (math_bits DIV 0 0)]>
        (registers (Process_new 0 [10; 0; 1; 2] [])))) /\
  (forall lb rb, F32.is_nan (math DIV (F32.from_bits lb) (F32.from_bits rb)) = false ->
     math_bits DIV lb rb = F32.to_bits (math DIV (F32.from_bits lb) (F32.from_bits rb))) /\
  (forall lb rb, F32.is_nan (math DIV (F32.from_bits lb) (F32.from_bits rb)) = true ->
     F32.is_nan (F32.from_bits (math_bits DIV lb rb)) = true) /\
  (DIV = DIV -> forall lb z, z = 0 \/ z = 2 ^ 31 ->
     math_bits DIV lb z = 2139095040 \/ math_bits DIV lb z = 4286578688 \/
     F32.is_nan (F32.from_bits (math_bits DIV lb z)) = true).
Proof.
  apply (math_op_ieee empty_vm (fun _ _ => Panicked) (Process_new 0 [10; 0; 1; 2] []) DIV
           0 1 2 Register_default Register_default);
    [right; right; right; reflexivity|reflexivity..|simpl; lia].
Defined.

(** C5: [LESS_THAN], [LESS_OR_EQUAL], [EQUAL], [GREATER_OR_EQUAL] and
    [GREATER_THAN] write, tagged with the number sentinel [0x2A], exactly
    the bits of [1.0] when the IEEE-754 comparison of the payloads read as
    [f32] holds and exactly the bits of [0.0] otherwise; every comparison,
    [EQUAL] included, is false when an operand is NaN. *)
Theorem compare_op_ieee vm run p op bl br bd l r :
  op = LESS_THAN \/ op = LESS_OR_EQUAL \/ op = EQUAL \/ op = GREATER_OR_EQUAL \/
  op = GREATER_THAN ->
  cursor_buf p !! cursor_pos p = Some (opcode_byte op) ->
  cursor_buf p !! (cursor_pos p + 1)%nat = Some bl ->
  cursor_buf p !! (cursor_pos p + 2)%nat = Some br ->
  cursor_buf p !! (cursor_pos p + 3)%nat = Some bd ->
  registers p !! Z.to_nat bl = Some l ->
  registers p !! Z.to_nat br = Some r ->
  (Z.to_nat bd < length (registers p))%nat ->
  execute_one vm run p =
    Finished (true, set_registers (set_position p (cursor_pos p + 4))
      (<[Z.to_nat bd := mkRegister NUMBER_TAG
          (if ieee_holds op (F32.from_bits l.(value)) (F32.from_bits r.(value))
           then F32.one_bits else F32.zero_bits)]>
        (registers p))) /\
  (F32.is_nan (F32.from_bits l.(value)) = true \/
   F32.is_nan (F32.from_bits r.(value)) = true ->
   ieee_holds op (F32.from_bits l.(value)) (F32.from_bits r.(value)) = false).
Proof.
  intros Hop H0 H1 H2 H3 Hl Hr Hd. rewrite <- (compare_ieee l r op Hop).
  split; [|apply compare_nan].
  rewrite Nat.add_1_r in H1.
  replace (cursor_pos p + 2)%nat with (S (S (cursor_pos p))) in H2 by lia.
  replace (cursor_pos p + 3)%nat with (S (S (S (cursor_pos p)))) in H3 by lia.
  replace (cursor_pos p + 4)%nat with (S (S (S (S (cursor_pos p))))) by lia.
  rewrite <- (set_position_eta p) at 1.
  unfold execute_one, next_opcode. rewrite (next_byte_at _ _ _ H0). cbn [obind].
  destruct Hop as [Hop | [Hop | [Hop | [Hop | Hop]]]]; subst op;
    cbn -[compare F32.one_bits F32.zero_bits].
  all: unfold read_register.
  all: rewrite (next_byte_at _ _ _ H1); cbn [obind];
    rewrite (next_byte_at _ _ _ H2); cbn [obind];
    rewrite (next_byte_at _ _ _ H3); cbn [obind].
  all: unfold get_reg, set_reg; cbn [registers set_position]; rewrite Hl, Hr; cbn [obind].
  all: rewrite decide_True by exact Hd; reflexivity.
Qed.

Lemma compare_op_ieee_witness :
  execute_one empty_vm (fun _ _ => Panicked)
    (Process_new 0 [13; 0; 1; 2] [mkRegister 42 F32.nan_bits]) =
    Finished (true, set_registers
      (set_position (Process_new 0 [13; 0; 1; 2] [mkRegister 42 F32.nan_bits]) (0 + 4))
      (<[Z.to_nat 2 := mkRegister NUMBER_TAG
          (if ieee_holds EQUAL (F32.from_bits 0) (F32.from_bits 0)
           then F32.one_bits else F32.zero_bits)]>
        (registers (Process_new 0 [13; 0; 1; 2] [mkRegister 42 F32.nan_bits])))) /\
  (F32.is_nan (F32.from_bits 0) = true \/ F32.is_nan (F32.from_bits 0) = true ->
   ieee_holds EQUAL (F32.from_bits 0) (F32.from_bits 0) = false).
Proof.
  apply (compare_op_ieee empty_vm (fun _ _ => Panicked)
           (Process_new 0 [13; 0; 1; 2] [mkRegister 42 F32.nan_bits]) EQUAL
           0 1 2 Register_default Register_default);
    [right; right; left; reflexivity|reflexivity..|simpl; lia].
Defined.

Lemma opcode_of_byte_out b : ~ (0 <= b < 22) -> opcode_of_byte b = INVALID.
Proof.
  intros H. destruct b as [|p|p]; [lia| |reflexivity].
  destruct p as [[[[[p|p|]|[p|p|]|]|[[p|p|]|[p|p|]|]|]|[[[p|p|]|[p|p|]|]|[[p|p|]|[p|p|]|]|]|]
                |[[[[p|p|]|[p|p|]|]|[[p|p|]|[p|p|]|]|]|[[[p|p|]|[p|p|]|]|[[p|p|]|[p|p|]|]|]|]|];
    try reflexivity; lia.
Qed.

Lemma opcode_of_byte_in b : 0 <= b < 22 -> b = opcode_byte (opcode_of_byte b).
Proof.
  intros H.
  assert (b = 0 \/ b = 1 \/ b = 2 \/ b = 3 \/ b = 4 \/ b = 5 \/ b = 6 \/ b = 7 \/ b = 8 \/
          b = 9 \/ b = 10 \/ b = 11 \/ b = 12 \/ b = 13 \/ b = 14 \/ b = 15 \/ b = 16 \/
          b = 17 \/ b = 18 \/ b = 19 \/ b = 20 \/ b = 21) as Hb by lia.
  repeat destruct Hb as [-> | Hb]; subst; reflexivity.
Qed.

Lemma obind_finished_inv {A B} (m : outcome A) (k : A -> outcome B) b :
  obind m k = Finished b -> exists a, m = Finished a /\ k a = Finished b.
Proof. destruct m; simpl; eauto; discriminate. Qed.

(** Splits a successful chain of [let!] steps into its steps. *)
Ltac finished_inv H :=
  repeat match type of H with
  | obind _ _ = Finished _ =>
      let a := fresh "a" in let Ea := fresh "Ea" in
      apply obind_finished_inv in H; destruct H as [a [Ea H]];
      match type of a with (_ * _)%type => destruct a | _ => idtac end;
      cbn beta iota in H
  | (if ?c then _ else _) = Finished _ => destruct c
  | Finished _ = Finished _ => injection H as H
  end.

Lemma next_byte_rid p x p' :
  next_byte p = Finished (x, p') -> return_register_id p' = return_register_id p.
Proof.
  unfold next_byte. destruct (cursor_buf p !! cursor_pos p); intros H; inversion H; done.
Qed.

Ltac rid_steps :=
  repeat match goal with
  | E : next_byte _ = Finished (_, _) |- _ => apply next_byte_rid in E
  | E : read_register _ = Finished (_, _) |- _ =>
      unfold read_register in E; finished_inv E; subst
  | E : read_type _ = Finished (_, _) |- _ => unfold read_type in E
  | E : read_value _ = Finished (_, _) |- _ => unfold read_value in E; finished_inv E; subst
  | E : read_short _ = Finished (_, _) |- _ => unfold read_short in E; finished_inv E; subst
  | E : do_math_op _ _ = Finished _ |- _ => unfold do_math_op in E; finished_inv E; subst
  end.

(** A step that is not [RETURN] leaves the return register id alone. *)
Lemma execute_one_rid vm run p b ok p' :
  cursor_buf p !! cursor_pos p = Some b -> b <> opcode_byte RETURN ->
  execute_one vm run p = Finished (ok, p') -> return_register_id p' = return_register_id p.
Proof.
  intros H0 Hb H. unfold execute_one, next_opcode, next_byte in H. rewrite H0 in H.
  cbn [obind] in H.
  destruct (opcode_of_byte b) eqn:Eop.
  all: try (exfalso; apply Hb; rewrite (opcode_of_byte_in b), Eop; [reflexivity|];
            destruct (decide (0 <= b < 22)) as [|Hout]; [done|];
            rewrite opcode_of_byte_out in Eop by exact Hout; discriminate).
  all: finished_inv H; subst; rid_steps;
       cbn [return_register_id set_registers set_locals set_position set_call_arg_stack] in *;
       congruence.
Qed.

(** The [RETURN] step. *)
Lemma execute_one_return vm run p b :
  cursor_buf p !! cursor_pos p = Some (opcode_byte RETURN) ->
  cursor_buf p !! S (cursor_pos p) = Some b ->
  execute_one vm run p =
    Finished (true, set_return_register_id (set_position p (S (S (cursor_pos p)))) (Z.to_nat b)).
Proof.
  intros H0 H1. rewrite <- (set_position_eta p) at 1.
  unfold execute_one, next_opcode. rewrite (next_byte_at _ _ _ H0). cbn [obind]. simpl.
  unfold read_register. rewrite (next_byte_at _ _ _ H1). reflexivity.
Qed.

(** The steps at which the loop stops: [HALT], [SET_FIELD] and every byte
    that is not an opcode. *)
Lemma execute_one_stop vm run p b :
  cursor_buf p !! cursor_pos p = Some b -> (b = 0 \/ b = 6 \/ ~ (0 <= b < 22)) ->
  execute_one vm run p = Finished (false, set_position p (S (cursor_pos p))).
Proof.
  intros H0 Hb. unfold execute_one, next_opcode, next_byte. rewrite H0. cbn [obind].
  destruct Hb as [-> | [-> | Hb]]; [reflexivity|reflexivity|].
  rewrite opcode_of_byte_out by exact Hb. reflexivity.
Qed.

(** C6: [run_program] on a registered id builds a fresh [Process] (return
    register id [0], all registers zero) and, when the loop stops, returns the
    content at that moment of the register whose id the return register id
    holds; [RETURN] only sets that id and the loop goes on, every other step
    leaves the id alone. So without any [RETURN] the result is register 0 as
    it is at termination, not necessarily the all-zero register. *)
Theorem run_program_return_register fuel vm id bc call_args :
  bytecodes vm !! id = Some bc ->
  run_program (S fuel) vm id call_args =
    (let! p := execute fuel vm (Process_new (current_pid vm) bc call_args) in
     get_reg (registers p) (return_register_id p)) /\
  return_register_id (Process_new (current_pid vm) bc call_args) = 0%nat /\
  registers (Process_new (current_pid vm) bc call_args) = repeat Register_default 16 /\
  (forall run p b, cursor_buf p !! cursor_pos p = Some (opcode_byte RETURN) ->
     cursor_buf p !! S (cursor_pos p) = Some b ->
     execute_one vm run p =
       Finished (true, set_return_register_id (set_position p (S (S (cursor_pos p))))
                         (Z.to_nat b))) /\
  (forall run p b ok p', cursor_buf p !! cursor_pos p = Some b -> b <> opcode_byte RETURN ->
     execute_one vm run p = Finished (ok, p') -> return_register_id p' = return_register_id p) /\
  (forall p, execute (S fuel) vm p =
     let! (ok, p') := execute_one vm (run_program fuel vm) p in
     if ok then execute fuel vm p' else Finished p').
Proof.
  intros H. split; [simpl; rewrite H; reflexivity|].
  split; [reflexivity|]. split; [reflexivity|].
  split; [intros; apply execute_one_return; assumption|].
  split; [intros; eapply execute_one_rid; eassumption|].
  intros p. reflexivity.
Qed.

Lemma run_program_return_register_witness :
  let bc := [1; 0; 42; 0; 0; 128; 63; 21; 0; 0] in
  let vm := add_program empty_vm 0 bc in
  run_program 10 vm 0 [] =
    (let! p := execute 9 vm (Process_new (current_pid vm) bc []) in
     get_reg (registers p) (return_register_id p)) /\
  return_register_id (Process_new (current_pid vm) bc []) = 0%nat /\
  registers (Process_new (current_pid vm) bc []) = repeat Register_default 16 /\
  (forall run p b, cursor_buf p !! cursor_pos p = Some (opcode_byte RETURN) ->
     cursor_buf p !! S (cursor_pos p) = Some b ->
     execute_one vm run p =
       Finished (true, set_return_register_id (set_position p (S (S (cursor_pos p))))
                         (Z.to_nat b))) /\
  (forall run p b ok p', cursor_buf p !! cursor_pos p = Some b -> b <> opcode_byte RETURN ->
     execute_one vm run p = Finished (ok, p') -> return_register_id p' = return_register_id p) /\
  (forall p, execute 10 vm p =
     let! (ok, p') := execute_one vm (run_program 9 vm) p in
     if ok then execute 9 vm p' else Finished p').
Proof.
  intros bc vm. apply (run_program_return_register 9 vm 0 bc []). reflexivity.
Defined.

(** Counterexample to C6: a buffer that loads [1.0] into register 0 and
    halts, with no [RETURN] byte anywhere, returns [1.0] with the number tag,
    not the all-zero register. *)
Lemma run_without_return_not_zero :
  let bc := [1; 0; 42; 0; 0; 128; 63; 0] in
  ~ In (opcode_byte RETURN) bc /\
  run_program 10 (add_program empty_vm 0 bc) 0 [] = Finished (mkRegister 42 F32.one_bits) /\
  mkRegister 42 F32.one_bits <> Register_default.
Proof.
  intros bc. split; [simpl; lia|]. split; [vm_compute; reflexivity|].
  intros H. inversion H.
Qed.

(** C7: the loop stops, with [Err(())], exactly at the bytes [execute_one]
    has no effectful case for: [HALT] (byte 0), [SET_FIELD] (byte 6) and
    every byte that is not an opcode (22 and above). The stop is a normal
    completion: [execute] returns the process with its cursor past that byte
    and everything else unchanged, whatever the byte, so the return register
    [run_program] then reads is the current one; a corrupt byte and a
    [HALT] give the same outcome. *)
Theorem execute_stops_iff vm run p b :
  cursor_buf p !! cursor_pos p = Some b ->
  ((exists p', execute_one vm run p = Finished (false, p')) <->
   (b = 0 \/ b = 6 \/ ~ (0 <= b < 22))) /\
  ((b = 0 \/ b = 6 \/ ~ (0 <= b < 22)) ->
   execute_one vm run p = Finished (false, set_position p (S (cursor_pos p))) /\
   (forall fuel, execute (S fuel) vm p = Finished (set_position p (S (cursor_pos p)))) /\
   get_return_value (set_position p (S (cursor_pos p))) = get_return_value p).
Proof.
  intros H0. split; [split|].
  - intros [p' Hp']. destruct (decide (0 <= b < 22)) as [Hin|Hout]; [|auto].
    rewrite (opcode_of_byte_in b Hin).
    unfold execute_one, next_opcode, next_byte in Hp'. rewrite H0 in Hp'. cbn [obind] in Hp'.
    destruct (opcode_of_byte b); finished_inv Hp'; try discriminate; auto.
    all: right; right; simpl; lia.
  - intros Hb. eexists. exact (execute_one_stop _ _ _ _ H0 Hb).
  - intros Hb. split; [exact (execute_one_stop _ _ _ _ H0 Hb)|]. split; [|reflexivity].
    intros fuel. simpl. rewrite (execute_one_stop _ _ _ _ H0 Hb). reflexivity.
Qed.

Lemma execute_stops_iff_witness :
  ((exists p', execute_one empty_vm (fun _ _ => Panicked) (Process_new 0 [200] []) =
               Finished (false, p')) <->
   (200 = 0 \/ 200 = 6 \/ ~ (0 <= 200 < 22))) /\
  ((200 = 0 \/ 200 = 6 \/ ~ (0 <= 200 < 22)) ->
   execute_one empty_vm (fun _ _ => Panicked) (Process_new 0 [200] []) =
     Finished (false, set_position (Process_new 0 [200] []) 1) /\
   (forall fuel, execute (S fuel) empty_vm (Process_new 0 [200] []) =
                 Finished (set_position (Process_new 0 [200] []) 1)) /\
   get_return_value (set_position (Process_new 0 [200] []) 1) =
     get_return_value (Process_new 0 [200] [])).
Proof. apply (execute_stops_iff empty_vm (fun _ _ => Panicked) (Process_new 0 [200] []) 200). reflexivity. Defined.

(** C9: for an id with no bytecode and no host procedure, [run_program]
    panics on the failed [get_proc_by_id(id).unwrap()]. The failure does not
    reach the dispatcher as a run-time failure: a VM hook whose program
    [CALL]s such an id makes [call_proc_by_id_hook] itself panic (unwinding
    out of an [extern "C"] function), and the [HookType::VM] arm never
    produces the [Err] that the dispatcher reports through [stack_trace]. *)
Theorem unknown_id_panics fuel vm id call_args :
  bytecodes vm !! id = None -> get_proc_by_id (host vm) id = None ->
  run_program (S fuel) vm id call_args = Panicked /\
  hook_vm_branch (S fuel) vm id call_args = Panicked /\
  (forall h usr pid src args rr post,
     PROC_HOOKS h !! pid = Some HookType_VM -> HOOK_VM h = vm ->
     bytecodes vm !! pid = Some ([opcode_byte CALL] ++ le_bytes32 id ++ [rr] ++ post) ->
     0 <= id < 2 ^ 32 ->
     call_proc_by_id_hook (S (S (S fuel))) h usr pid src args = Panicked) /\
  (forall f h usr pid src args e, PROC_HOOKS h !! pid = Some HookType_VM ->
     call_proc_by_id_hook f h usr pid src args <> Finished (Hook_StackTrace e)).
Proof.
  intros Hb Hh.
  assert (R : forall a, run_program (S fuel) vm id a = Panicked).
  { intros a. simpl. rewrite Hb. unfold native_call. rewrite Hh. reflexivity. }
  split; [apply R|]. split; [unfold hook_vm_branch; rewrite R; reflexivity|]. split.
  - intros h usr pid src args rr post Hp Hv Hbc Hid.
    unfold call_proc_by_id_hook. rewrite Hp. unfold hook_vm_branch.
    cbn [run_program]. rewrite Hv, Hbc. cbn [execute].
    unfold execute_one, next_opcode, read_value, read_register, next_byte.
    pose proof (decode_le32_le_bytes32 id Hid) as E.
    unfold decode_le32, le_bytes32 in E.
    cbn -[run_program le_u32 byte_at]. rewrite E, R. reflexivity.
  - intros f h usr pid src args e Hp. unfold call_proc_by_id_hook. rewrite Hp.
    unfold hook_vm_branch. destruct (run_program f (HOOK_VM h) pid args); discriminate.
Qed.

Lemma unknown_id_panics_witness :
  run_program 5 empty_vm 7 [] = Panicked /\
  hook_vm_branch 5 empty_vm 7 [] = Panicked /\
  (forall h usr pid src args rr post,
     PROC_HOOKS h !! pid = Some HookType_VM -> HOOK_VM h = empty_vm ->
     bytecodes empty_vm !! pid = Some ([opcode_byte CALL] ++ le_bytes32 7 ++ [rr] ++ post) ->
     0 <= 7 < 2 ^ 32 ->
     call_proc_by_id_hook 7 h usr pid src args = Panicked) /\
  (forall f h usr pid src args e, PROC_HOOKS h !! pid = Some HookType_VM ->
     call_proc_by_id_hook f h usr pid src args <> Finished (Hook_StackTrace e)).
Proof. apply (unknown_id_panics 4 empty_vm 7 []); reflexivity. Defined.

(** The failing input of C9: a VM hook for proc 1 whose program calls proc
    7, which has neither bytecode nor a host procedure. *)
Lemma unknown_call_from_vm_hook_panics :
  let h := hook_by_id_with_bytecode_dont_use_this (mkHooks ∅ empty_vm) 1
             ([opcode_byte CALL] ++ le_bytes32 7 ++ [0; opcode_byte HALT]) in
  call_proc_by_id_hook 10 h Register_default 1 Register_default [] = Panicked.
Proof. vm_compute. reflexivity. Qed.

(** ** Literal returns *)

(** C1: [return L;] for an integer or float literal lowers to a
    [LOAD_IMMEDIATE] into register 0 with the number tag and the literal's
    bits, then [RETURN 0]; [compile] appends no [HALT], so [run_program]
    reads past the last byte after the [RETURN] and panics. The same buffer
    with a [HALT] byte appended returns the register tagged [0x2A] whose
    payload is the literal's bits. *)
Theorem return_literal_runs_off_end sid ps t bits fuel vm id call_args :
  t = Term_Float bits \/ (exists n, t = Term_Int n /\ bits = F32.to_bits (F32.of_i32 n)) ->
  compile sid {| parameters := ps; code := Some [Statement_Return (Some (Expression_Base [] t []))] |}
    = COk ([1; 0; 42] ++ le_bytes32 bits ++ [21; 0]) /\
  run_program (S (S (S (S fuel)))) (add_program vm id ([1; 0; 42] ++ le_bytes32 bits ++ [21; 0]))
    id call_args = Panicked /\
  run_program (S (S (S (S fuel))))
    (add_program vm id ([1; 0; 42] ++ le_bytes32 bits ++ [21; 0] ++ [opcode_byte HALT]))
    id call_args = Finished (mkRegister NUMBER_TAG (decode_le32 (le_bytes32 bits))).
Proof.
  intros Ht. split; [destruct Ht as [-> | (n & -> & ->)]; reflexivity|].
  split; cbn [run_program]; unfold add_program; cbn [bytecodes];
    rewrite lookup_insert_eq; reflexivity.
Qed.

Lemma return_literal_runs_off_end_witness :
  (Term_Int 1 = Term_Float (F32.to_bits (F32.of_i32 1)) \/
   exists n, Term_Int 1 = Term_Int n /\ F32.to_bits (F32.of_i32 1) = F32.to_bits (F32.of_i32 n)) /\
  compile (fun _ => 0) {| parameters := []; code := Some [Statement_Return (Some (lit 1))] |}
    = COk ([1; 0; 42] ++ le_bytes32 (F32.to_bits (F32.of_i32 1)) ++ [21; 0]) /\
  run_program 4 (add_program empty_vm 0 ([1; 0; 42] ++ le_bytes32 (F32.to_bits (F32.of_i32 1)) ++ [21; 0]))
    0 [] = Panicked.
Proof.
  split; [right; exists 1; split; reflexivity|].
  destruct (return_literal_runs_off_end (fun _ => 0) [] (Term_Int 1) (F32.to_bits (F32.of_i32 1))
              0 empty_vm 0 [] (or_intror (ex_intro _ 1 (conj eq_refl eq_refl))))
    as (Hc & Hr & _).
  split; [exact Hc | exact Hr].
Defined.

(** ** The register allocator *)

(** C2: [get_free_register] takes [free_registers[0]] with [swap_remove(0)]:
    the head of the free-list, not its smallest id, and the last id moves to
    the front; only an empty free-list consumes [next_free_register]. *)
Theorem get_free_register_spec s :
  get_free_register s =
    match free_registers s with
    | [] => COk (next_free_register s,
                 mkCState (bytecode s) (S (next_free_register s)) [] (c_locals s) (c_args s))
    | x :: rest =>
        COk (x, mkCState (bytecode s) (next_free_register s)
                  (match rest with
                   | [] => []
                   | _ => List.last rest 0%nat :: List.removelast rest
                   end) (c_locals s) (c_args s))
    end.
Proof.
  unfold get_free_register, swap_remove0.
  destruct (free_registers s) as [|x rest]; [reflexivity|].
  destruct (rev rest) as [|z zs] eqn:E.
  - apply (f_equal (fun l => rev l)) in E. rewrite rev_involutive in E. subst. reflexivity.
  - apply (f_equal (fun l => rev l)) in E. rewrite rev_involutive in E. simpl in E. subst rest.
    rewrite last_last, removelast_last.
    destruct (rev zs ++ [z]) eqn:E2; [by destruct (rev zs)|reflexivity].
Qed.

(** Counterexample to C2: after [1 + 2] the free-list is [[1; 0]], and the
    next temporary is register 1 although 0 is free. *)
Lemma get_free_register_not_smallest :
  let s0 := Compiler_new {| parameters := []; code := None |} in
  let s1 := match visit_expression (fun _ => 0)
                    (Expression_BinaryOp BinaryOp_Add (lit 1) (lit 2)) s0 with
            | COk (_, s) => s | _ => s0 end in
  free_registers s1 = [1; 0]%nat /\
  match get_free_register s1 with COk (r, _) => r = 1%nat | _ => False end.
Proof. vm_compute. split; reflexivity. Qed.

(** C3: every temporary goes back on the free-list when the construct that
    consumes it ends: after a whole body the free-list is a permutation of
    every id ever allocated, and an expression keeps only its result
    register. Nothing bounds [next_free_register] by the 16 slots. *)
Theorem temporaries_returned sid proc body bc :
  code proc = Some body -> compile sid proc = COk bc ->
  (exists s', visit_block sid body (Compiler_new proc) = COk (tt, s') /\
     bytecode s' = bc /\ free_registers s' ≡ₚ seq 0 (next_free_register s')) /\
  (forall e s r s', visit_expression sid e s = COk (r, s') ->
     free_registers s ≡ₚ seq 0 (next_free_register s) ->
     free_registers s' ++ [r] ≡ₚ seq 0 (next_free_register s')).
Proof.
  intros Hc H. split.
  - unfold compile in H. rewrite Hc in H.
    destruct (visit_block sid body (Compiler_new proc)) as [[[] s']| |] eqn:E;
      try discriminate H.
    injection H as <-. exists s'. split; [reflexivity|]. split; [reflexivity|].
    assert (I : free_inv [] s').
    { eapply visit_each_inv; [|exact E|].
      - apply List.Forall_forall. intros st _. apply visit_statement_inv.
      - unfold free_inv. reflexivity. }
    unfold free_inv in I. rewrite app_nil_r in I. exact I.
  - intros e s r s' He I.
    assert (I' : free_inv [] s) by (unfold free_inv; rewrite app_nil_r; exact I).
    exact (proj1 (visit_expression_inv sid) e s r s' [] He I').
Qed.

Lemma temporaries_returned_witness :
  let proc := {| parameters := []; code := Some [Statement_Return (Some (nested_sum 2))] |} in
  let bc := match compile (fun _ => 0) proc with COk bc => bc | _ => [] end in
  exists s', visit_block (fun _ => 0) [Statement_Return (Some (nested_sum 2))] (Compiler_new proc)
               = COk (tt, s') /\ bytecode s' = bc /\
             free_registers s' ≡ₚ seq 0 (next_free_register s').
Proof.
  intros proc bc.
  refine (proj1 (temporaries_returned (fun _ => 0) proc _ bc eq_refl _)).
  vm_compute. reflexivity.
Defined.

(** Counterexample to C3: the body [return 1 + (1 + (... + 1));] with 15
    additions holds 16 temporaries at once and emits [ADD 14 15 16];
    register 16 is outside the file, and running the code (with a [HALT]
    appended) panics. *)
Lemma nested_sum_exceeds_register_file :
  let proc := {| parameters := []; code := Some [Statement_Return (Some (nested_sum 15))] |} in
  let bc := match compile (fun _ => 0) proc with COk bc => bc | _ => [] end in
  compile (fun _ => 0) proc = COk bc /\
  In (ADD, [14; 15; 16]) (disassemble bc) /\
  existsb (fun '(o, ops) => existsb (fun r => 16 <=? r) (gp_register_operands o ops))
    (disassemble bc) = true /\
  run_program 100 (add_program empty_vm 0 (bc ++ [opcode_byte HALT])) 0 [] = Panicked.
Proof. vm_compute. split; [reflexivity|]. split; [|split; reflexivity]. tauto. Qed.

(** ** Bare returns *)

Lemma patch_all_to_end_ok ps s : exists s', patch_all_to_end ps s = COk (tt, s').
Proof.
  revert s. induction ps as [|l ps IH]; intros s; [eexists; reflexivity|].
  simpl. unfold cbind at 1. apply IH.
Qed.

Lemma cut_arms_none arms :
  cut_arms_with before_bare_return arms = None ->
  existsb (fun a => existsb has_bare_return a.2) arms = false.
Proof.
  induction arms as [|[c b] arms IH]; [reflexivity|]. simpl.
  destruct (existsb has_bare_return b); [discriminate|].
  destruct (cut_arms_with before_bare_return arms); [discriminate|]. auto.
Qed.

Lemma cut_with_free b :
  Forall (fun st => has_bare_return st = true ->
                    existsb has_bare_return (before_bare_return st) = false) b ->
  existsb has_bare_return (cut_with before_bare_return b) = false.
Proof.
  induction 1 as [|x b Hx Hb IH]; [reflexivity|]. simpl.
  destruct (has_bare_return x) eqn:E; [auto|]. simpl. rewrite E. exact IH.
Qed.

Lemma cut_arms_free arms arms' :
  Forall (fun a => Forall (fun st => has_bare_return st = true ->
                    existsb has_bare_return (before_bare_return st) = false) a.2) arms ->
  cut_arms_with before_bare_return arms = Some arms' ->
  existsb (fun a => existsb has_bare_return a.2) arms' = false.
Proof.
  intros H. revert arms'. induction H as [|[c b] arms Hb Harms IH]; intros arms' Hc;
    [discriminate|].
  simpl in Hc. destruct (existsb has_bare_return b) eqn:E.
  - injection Hc as <-. simpl. rewrite (cut_with_free b Hb). reflexivity.
  - destruct (cut_arms_with before_bare_return arms) as [r|]; [|discriminate].
    injection Hc as <-. simpl. rewrite E. exact (IH r eq_refl).
Qed.

Lemma before_bare_return_free st :
  has_bare_return st = true -> existsb has_bare_return (before_bare_return st) = false.
Proof.
  induction st as [e|e|name v|arms els Harms Hels|k] using Statement_ind';
    intros Hb; try discriminate Hb.
  - destruct e; [discriminate Hb|]. reflexivity.
  - simpl. destruct (cut_arms_with before_bare_return arms) as [arms'|] eqn:Ec.
    + simpl. rewrite (cut_arms_free arms arms' Harms Ec). destruct els; reflexivity.
    + simpl in Hb. rewrite (cut_arms_none arms Ec) in Hb. simpl in Hb.
      destruct els as [eb|]; [|discriminate Hb]. simpl.
      rewrite (cut_arms_none arms Ec). simpl. rewrite (cut_with_free eb Hels). reflexivity.
Qed.

Lemma visit_block_cut sid b :
  Forall (fun st => has_bare_return st = true -> forall s,
     visit_statement sid st s
       = then_bare_return (visit_block sid (before_bare_return st) s)) b ->
  existsb has_bare_return b = true ->
  forall s, visit_each (visit_statement sid) b s
    = then_bare_return (visit_each (visit_statement sid) (cut_with before_bare_return b) s).
Proof.
  induction 1 as [|x b Hx Hb IH]; intros Hex s; [discriminate Hex|].
  simpl in Hex |- *. unfold cbind at 1.
  destruct (has_bare_return x) eqn:E.
  - rewrite (Hx eq_refl s). unfold visit_block.
    destruct (visit_each (visit_statement sid) (before_bare_return x) s) as [[u s']| |];
      reflexivity.
  - simpl in Hex. simpl. unfold cbind.
    destruct (visit_statement sid x s) as [[u s']| |]; [|reflexivity|reflexivity].
    exact (IH Hex s').
Qed.

Lemma visit_arms_cut sid he arms arms' p s :
  Forall (fun a => Forall (fun st => has_bare_return st = true -> forall s,
     visit_statement sid st s
       = then_bare_return (visit_block sid (before_bare_return st) s)) a.2) arms ->
  cut_arms_with before_bare_return arms = Some arms' ->
  visit_arms sid (visit_each (visit_statement sid)) he arms p s
    = then_bare_return (visit_arms sid (visit_each (visit_statement sid)) he arms' p s).
Proof.
  intros H. revert arms' p s.
  induction H as [|[c b] arms Hb Harms IH]; intros arms' p s Hc; [discriminate|].
  simpl in Hc. destruct (existsb has_bare_return b) eqn:E.
  - injection Hc as <-. simpl. unfold cbind.
    destruct (visit_expression sid c s) as [[reg s1]| |]; [|reflexivity|reflexivity].
    simpl.
    rewrite (visit_block_cut sid b Hb E).
    match goal with |- context [visit_each (visit_statement sid) (cut_with _ b) ?s3] =>
      destruct (visit_each (visit_statement sid) (cut_with before_bare_return b) s3)
        as [[u s2]| |]; [|reflexivity|reflexivity] end.
    destruct he; reflexivity.
  - destruct (cut_arms_with before_bare_return arms) as [r|]; [|discriminate].
    injection Hc as <-. simpl. unfold cbind.
    destruct (visit_expression sid c s) as [[reg s1]| |]; [|reflexivity|reflexivity].
    simpl.
    match goal with |- context [visit_each (visit_statement sid) b ?s3] =>
      destruct (visit_each (visit_statement sid) b s3)
        as [[u s2]| |]; [|reflexivity|reflexivity] end.
    destruct he; apply IH; reflexivity.
Qed.

Lemma visit_statement_cut sid st :
  has_bare_return st = true -> forall s,
  visit_statement sid st s = then_bare_return (visit_block sid (before_bare_return st) s).
Proof.
  induction st as [e|e|name v|arms els Harms Hels|k] using Statement_ind';
    intros Hb s; try discriminate Hb.
  - destruct e; [discriminate Hb|]. reflexivity.
  - simpl. unfold visit_if, visit_block. simpl.
    destruct (cut_arms_with before_bare_return arms) as [arms'|] eqn:Ec.
    + cbn [visit_each visit_statement]. unfold visit_if, cbind.
      replace (bool_decide (is_Some (option_map (fun _ : list Statement => []) els)))
        with (bool_decide (is_Some els)) by (destruct els; reflexivity).
      rewrite (visit_arms_cut sid _ arms arms' [] s Harms Ec).
      destruct (visit_arms sid (visit_each (visit_statement sid))
                  (bool_decide (is_Some els)) arms' [] s) as [[ps s1]| |];
        [|reflexivity|reflexivity].
      destruct els as [eb|]; [|reflexivity]. simpl.
      destruct (patch_all_to_end_ok ps s1) as [s2 ->]. reflexivity.
    + simpl in Hb. rewrite (cut_arms_none arms Ec) in Hb. simpl in Hb.
      destruct els as [eb|]; [|discriminate Hb].
      cbn [visit_each visit_statement]. unfold visit_if, cbind.
      rewrite !(bool_decide_eq_true_2 (is_Some (Some _))) by (eexists; reflexivity).
      destruct (visit_arms sid (visit_each (visit_statement sid)) true arms [] s)
        as [[ps s1]| |];
        [|reflexivity|reflexivity].
      simpl. rewrite (visit_block_cut sid eb Hels Hb s1).
      destruct (visit_each (visit_statement sid) (cut_with before_bare_return eb) s1)
        as [[u s2]| |]; [|reflexivity|reflexivity].
      destruct (patch_all_to_end_ok ps s2) as [s3 ->]. reflexivity.
Qed.

(** C10: a body with a [return;] without value (at top level, inside an
    [if] arm or inside an [else] block) never compiles. The outcome is
    decided by the part of the body lowered before the first such
    [return;] ([cut_block], which holds no [return;] of its own): when that
    part compiles, the error is [UnsupportedStatement], and otherwise that
    part's own error or panic is the outcome. *)
Theorem bare_return_rejected sid ps body :
  existsb has_bare_return body = true ->
  existsb has_bare_return (cut_block body) = false /\
  (forall bc, compile sid {| parameters := ps; code := Some body |} <> COk bc) /\
  compile sid {| parameters := ps; code := Some body |}
    = match compile sid {| parameters := ps; code := Some (cut_block body) |} with
      | COk _ => CErr (UnsupportedStatement (Statement_Return None))
      | CErr e => CErr e
      | CPanic => CPanic
      end.
Proof.
  intros Hb.
  assert (Hall : forall b, Forall (fun st => has_bare_return st = true -> forall s,
     visit_statement sid st s
       = then_bare_return (visit_block sid (before_bare_return st) s)) b).
  { intros b. apply List.Forall_forall. intros st _. apply visit_statement_cut. }
  assert (Heq : compile sid {| parameters := ps; code := Some body |}
    = match compile sid {| parameters := ps; code := Some (cut_block body) |} with
      | COk _ => CErr (UnsupportedStatement (Statement_Return None))
      | CErr e => CErr e
      | CPanic => CPanic
      end).
  { unfold compile, visit_block, cut_block. simpl.
    rewrite (visit_block_cut sid body (Hall body) Hb).
    change (Compiler_new {| parameters := ps; code := Some (cut_with before_bare_return body) |})
      with (Compiler_new {| parameters := ps; code := Some body |}).
    destruct (visit_each (visit_statement sid) (cut_with before_bare_return body)
                (Compiler_new {| parameters := ps; code := Some body |}))
      as [[u s]| |]; reflexivity. }
  split; [|split; [|exact Heq]].
  - apply cut_with_free. apply List.Forall_forall. intros st _.
    apply before_bare_return_free.
  - intros bc H. rewrite Heq in H.
    destruct (compile sid {| parameters := ps; code := Some (cut_block body) |});
      discriminate H.
Qed.

Lemma bare_return_rejected_witness :
  let body := [Statement_If [(lit 1, [Statement_Expr (lit 2); Statement_Return None;
                                      Statement_Expr (lit 3)])] (Some [])] in
  existsb has_bare_return body = true /\
  existsb has_bare_return (cut_block body) = false /\
  (forall bc, compile (fun _ => 0) {| parameters := []; code := Some body |} <> COk bc) /\
  compile (fun _ => 0) {| parameters := []; code := Some body |}
    = match compile (fun _ => 0) {| parameters := []; code := Some (cut_block body) |} with
      | COk _ => CErr (UnsupportedStatement (Statement_Return None))
      | CErr e => CErr e
      | CPanic => CPanic
      end.
Proof.
  intros body. split; [reflexivity|].
  apply (bare_return_rejected (fun _ => 0) [] body). reflexivity.
Defined.

(** Counterexample to C10: the first statement's error is the one reported,
    not [UnsupportedStatement]. *)
Lemma unknown_ident_before_bare_return :
  compile (fun _ => 0)
    {| parameters := [];
       code := Some [Statement_Expr (Expression_Base [] (Term_Ident "x"%string) []);
                     Statement_Return None] |}
  = CErr (UnknownIdentifier "x"%string).
Proof. vm_compute. reflexivity. Qed.

(** ** Decoding instructions: reading the cursor *)

Lemma next_byte_drop p b rest :
  drop (cursor_pos p) (cursor_buf p) = b :: rest ->
  next_byte p = Finished (b, set_position p (S (cursor_pos p))).
Proof.
  intros H. unfold next_byte.
  assert (E : cursor_buf p !! cursor_pos p = Some b).
  { rewrite <- (Nat.add_0_r (cursor_pos p)), <- lookup_drop, H. reflexivity. }
  rewrite E. reflexivity.
Qed.

Lemma next_byte_drop_nil p :
  drop (cursor_pos p) (cursor_buf p) = [] -> next_byte p = Panicked.
Proof.
  intros H. unfold next_byte.
  assert (E : cursor_buf p !! cursor_pos p = None).
  { rewrite <- (Nat.add_0_r (cursor_pos p)), <- lookup_drop, H. reflexivity. }
  rewrite E. reflexivity.
Qed.

Lemma drop_S_cons {A} (l : list A) n b rest :
  drop n l = b :: rest -> drop (S n) l = rest.
Proof.
  intros H. assert (E : drop 1 (drop n l) = drop (S n) l) by (rewrite drop_drop; f_equal; lia).
  rewrite <- E, H. reflexivity.
Qed.

(** Consume the bytes the cursor reads, one [next_byte] at a time. *)
Ltac read_bytes :=
  repeat match goal with
  | H : drop ?n ?buf = ?b :: ?rest |- context [next_byte ?q] =>
      rewrite (next_byte_drop q b rest H); cbn [obind opcode_of_byte];
      let H' := fresh "Hd" in pose proof (drop_S_cons _ _ _ _ H) as H'; clear H
  | H : drop ?n ?buf = [] |- context [next_byte ?q] =>
      rewrite (next_byte_drop_nil q H); cbn [obind]
  end.

Lemma le_u32_bytes v : 0 <= v < 2 ^ 32 ->
  le_u32 (byte_at v 0) (byte_at v 1) (byte_at v 2) (byte_at v 3) = v.
Proof. apply decode_le32_le_bytes32. Qed.

Lemma lookup_repeat {A} (x : A) n k :
  repeat x n !! k = if decide (k < n)%nat then Some x else None.
Proof.
  revert k. induction n as [|n IH]; intros [|k]; simpl; try reflexivity.
  rewrite IH. destruct (decide (k < n)%nat), (decide (S k < S n)%nat); try reflexivity; lia.
Qed.

(** Opcode bytes: [From<Opcode> for u8] and [From<u8> for Opcode] are
    inverse on the 22 opcode bytes, and every other byte decodes to
    [INVALID]. *)
Theorem opcode_byte_roundtrip :
  (forall o, opcode_of_byte (opcode_byte o) = o) /\
  (forall b, 0 <= b < 22 -> opcode_byte (opcode_of_byte b) = b) /\
  (forall b, opcode_of_byte b = INVALID <-> ~ (0 <= b < 22)).
Proof.
  split; [intros []; reflexivity|]. split.
  - intros b Hb. symmetry. apply opcode_of_byte_in. exact Hb.
  - intros b. split.
    + intros H Hb. pose proof (opcode_of_byte_in b Hb) as E. rewrite H in E. simpl in E. lia.
    + apply opcode_of_byte_out.
Qed.

(** [read_value] reads back, little-endian, the four bytes that the
    compiler's [to_le_bytes] writes, and advances the cursor by four. *)
Theorem read_value_le_bytes32 p pre v post :
  cursor_buf p = pre ++ le_bytes32 v ++ post -> cursor_pos p = length pre ->
  0 <= v < 2 ^ 32 ->
  read_value p = Finished (v, set_position p (length pre + 4)).
Proof.
  intros Hb Hp Hv.
  assert (H : drop (cursor_pos p) (cursor_buf p) = le_bytes32 v ++ post).
  { rewrite Hb, Hp, drop_app_length. reflexivity. }
  simpl in H. unfold read_value. read_bytes. cbn. rewrite le_u32_bytes by exact Hv.
  rewrite Hp. replace (S (S (S (S (length pre))))) with (length pre + 4)%nat by lia.
  reflexivity.
Qed.

Lemma read_value_le_bytes32_witness :
  read_value (set_position (Process_new 0 ([7; 7] ++ le_bytes32 300 ++ [0]) []) 2)
  = Finished (300, set_position (set_position (Process_new 0 ([7; 7] ++ le_bytes32 300 ++ [0]) []) 2)
                                (length [7; 7] + 4)).
Proof.
  apply (read_value_le_bytes32 _ [7; 7] 300 [0]); [reflexivity | reflexivity | lia].
Defined.

(** ** Executing single instructions *)

(** An instruction whose operand bytes run past the end of the buffer
    panics: every operand read unwraps the cursor's [read_u8]/[read_u16]/
    [read_u32]. *)
Theorem truncated_instruction_panics vm run p b ops :
  drop (cursor_pos p) (cursor_buf p) = b :: ops ->
  (length ops < operand_count (opcode_of_byte b))%nat ->
  execute_one vm run p = Panicked.
Proof.
  intros H Hlen. unfold execute_one, next_opcode.
  rewrite (next_byte_drop p b ops H). cbn [obind].
  pose proof (drop_S_cons _ _ _ _ H) as Hd. clear H.
  destruct (opcode_of_byte b); simpl in Hlen; try lia;
  unfold do_math_op, read_register, read_type, read_value, read_short; cbn zeta;
  repeat (read_bytes;
          match goal with H : drop _ _ = ?o |- _ => is_var o; destruct o; simpl in Hlen end);
  try lia; read_bytes; reflexivity.
Qed.

Lemma truncated_instruction_panics_witness :
  execute_one empty_vm (run_program 1 empty_vm)
    (Process_new 0 [opcode_byte LOAD_IMMEDIATE; 3; NUMBER_TAG] []) = Panicked.
Proof.
  apply (truncated_instruction_panics _ _ _ (opcode_byte LOAD_IMMEDIATE) [3; NUMBER_TAG]);
    [reflexivity | vm_compute; lia].
Defined.

(** [LOAD_IMMEDIATE r t v]: register [r] becomes [(t, v)], with [v] read
    little-endian, and the cursor moves past the seven bytes; a register
    index outside the register file panics. *)
Theorem load_immediate_step vm run p r t v post :
  drop (cursor_pos p) (cursor_buf p) = [opcode_byte LOAD_IMMEDIATE; r; t] ++ le_bytes32 v ++ post ->
  0 <= r -> 0 <= v < 2 ^ 32 ->
  execute_one vm run p =
    if decide (Z.to_nat r < length (registers p))%nat
    then Finished (true, set_registers (set_position p (cursor_pos p + 7))
                           (<[Z.to_nat r := mkRegister t v]> (registers p)))
    else Panicked.
Proof.
  intros H Hr Hv. simpl in H. unfold execute_one, next_opcode, read_register, read_type, read_value.
  read_bytes. cbn. rewrite le_u32_bytes by exact Hv.
  unfold set_reg. cbn. replace (S (S (S (S (S (S (S (cursor_pos p)))))))) with (cursor_pos p + 7)%nat by lia.
  destruct decide; reflexivity.
Qed.

Lemma load_immediate_step_witness :
  let p := Process_new 0 ([opcode_byte LOAD_IMMEDIATE; 3; NUMBER_TAG] ++ le_bytes32 7 ++
                          [opcode_byte HALT]) [] in
  execute_one empty_vm (run_program 1 empty_vm) p =
    if decide (Z.to_nat 3 < length (registers p))%nat
    then Finished (true, set_registers (set_position p (cursor_pos p + 7))
                           (<[Z.to_nat 3 := mkRegister NUMBER_TAG 7]> (registers p)))
    else Panicked.
Proof.
  intros p. apply (load_immediate_step _ _ p 3 NUMBER_TAG 7 [opcode_byte HALT]);
    [reflexivity | lia | lia].
Defined.

(** [LOAD_ARGUMENT a d]: register [d] becomes argument [a]; a missing
    argument or a register index outside the file panics. *)
Theorem load_argument_step vm run p a d post :
  drop (cursor_pos p) (cursor_buf p) = [opcode_byte LOAD_ARGUMENT; a; d] ++ post ->
  execute_one vm run p =
    match args p !! Z.to_nat a with
    | None => Panicked
    | Some arg =>
        if decide (Z.to_nat d < length (registers p))%nat
        then Finished (true, set_registers (set_position p (cursor_pos p + 3))
                               (<[Z.to_nat d := arg]> (registers p)))
        else Panicked
    end.
Proof.
  intros H. simpl in H. unfold execute_one, next_opcode, read_register.
  read_bytes. cbn. unfold get_reg. cbn.
  destruct (args p !! Z.to_nat a); [|reflexivity].
  unfold set_reg. cbn. replace (S (S (S (cursor_pos p)))) with (cursor_pos p + 3)%nat by lia.
  destruct decide; reflexivity.
Qed.

Lemma load_argument_step_witness :
  let p := Process_new 0 [opcode_byte LOAD_ARGUMENT; 1; 5; opcode_byte HALT]
                         [mkRegister NUMBER_TAG 9] in
  execute_one empty_vm (run_program 1 empty_vm) p =
    match args p !! Z.to_nat 1 with
    | None => Panicked
    | Some arg =>
        if decide (Z.to_nat 5 < length (registers p))%nat
        then Finished (true, set_registers (set_position p (cursor_pos p + 3))
                               (<[Z.to_nat 5 := arg]> (registers p)))
        else Panicked
    end.
Proof.
  intros p. apply (load_argument_step _ _ p 1 5 [opcode_byte HALT]). reflexivity.
Defined.

(** [STORE_LOCAL src l] followed by [LOAD_LOCAL l dst] copies register
    [src] into local [l] and into register [dst]. *)
Theorem store_then_load_local vm run p src l dst r post :
  drop (cursor_pos p) (cursor_buf p) =
    [opcode_byte STORE_LOCAL; src; l; opcode_byte LOAD_LOCAL; l; dst] ++ post ->
  registers p !! Z.to_nat src = Some r ->
  (Z.to_nat l < length (locals p))%nat -> (Z.to_nat dst < length (registers p))%nat ->
  exists p1, execute_one vm run p = Finished (true, p1) /\
    execute_one vm run p1 =
      Finished (true, set_registers
                        (set_locals (set_position p (cursor_pos p + 6))
                           (<[Z.to_nat l := r]> (locals p)))
                        (<[Z.to_nat dst := r]> (registers p))).
Proof.
  intros H Hr Hl Hd. simpl in H. eexists. split.
  - unfold execute_one, next_opcode, read_register. read_bytes. cbn.
    unfold get_reg. rewrite Hr. cbn. unfold set_reg. rewrite decide_True by exact Hl.
    reflexivity.
  - apply drop_S_cons in H. apply drop_S_cons in H. apply drop_S_cons in H.
    unfold execute_one, next_opcode, read_register.
    read_bytes. cbn. unfold get_reg. cbn.
    rewrite list_lookup_insert_eq by exact Hl. cbn. unfold set_reg. cbn.
    rewrite decide_True by exact Hd.
    replace (S (S (S (S (S (S (cursor_pos p))))))) with (cursor_pos p + 6)%nat by lia.
    reflexivity.
Qed.

Lemma store_then_load_local_witness :
  let p := Process_new 0 [opcode_byte STORE_LOCAL; 2; 1; opcode_byte LOAD_LOCAL; 1; 4;
                          opcode_byte HALT] [] in
  exists p1, execute_one empty_vm (run_program 1 empty_vm) p = Finished (true, p1) /\
    execute_one empty_vm (run_program 1 empty_vm) p1 =
      Finished (true, set_registers
                        (set_locals (set_position p (cursor_pos p + 6))
                           (<[Z.to_nat 1 := Register_default]> (locals p)))
                        (<[Z.to_nat 4 := Register_default]> (registers p))).
Proof.
  intros p. apply (store_then_load_local _ _ p 2 1 4 Register_default [opcode_byte HALT]);
    [reflexivity | reflexivity | vm_compute; lia | vm_compute; lia].
Defined.

(** [JUMP_FALSE c d] tests the raw 32 bits of register [c], not its float:
    it jumps to [d] exactly when the bits are all zero. So [-0.0]
    (bits [2^31]), which compares equal to [0.0], does not jump. *)
Theorem jump_false_raw_bits vm run p c d reg post :
  drop (cursor_pos p) (cursor_buf p) = [opcode_byte JUMP_FALSE; c] ++ le_bytes32 d ++ post ->
  0 <= d < 2 ^ 32 -> registers p !! Z.to_nat c = Some reg ->
  execute_one vm run p =
    Finished (true, set_position p (if value reg =? 0 then Z.to_nat d else (cursor_pos p + 6)%nat)) /\
  compare (mkRegister NUMBER_TAG (2 ^ 31)) (mkRegister NUMBER_TAG 0) EQUAL = true /\
  (2 ^ 31 =? 0) = false.
Proof.
  intros H Hd Hc. split; [|split; reflexivity].
  simpl in H. unfold execute_one, next_opcode, read_register, read_value.
  read_bytes. cbn. rewrite le_u32_bytes by exact Hd. unfold get_reg. cbn. rewrite Hc.
  cbn. destruct (value reg =? 0); [reflexivity|].
  replace (S (S (S (S (S (S (cursor_pos p))))))) with (cursor_pos p + 6)%nat by lia.
  reflexivity.
Qed.

Lemma jump_false_raw_bits_witness :
  let p := Process_new 0 ([opcode_byte JUMP_FALSE; 0] ++ le_bytes32 10 ++ [opcode_byte HALT]) [] in
  execute_one empty_vm (run_program 1 empty_vm) p =
    Finished (true, set_position p (if value Register_default =? 0 then Z.to_nat 10
                                    else (cursor_pos p + 6)%nat)) /\
  compare (mkRegister NUMBER_TAG (2 ^ 31)) (mkRegister NUMBER_TAG 0) EQUAL = true /\
  (2 ^ 31 =? 0) = false.
Proof.
  intros p. apply (jump_false_raw_bits _ _ p 0 10 Register_default [opcode_byte HALT]);
    [reflexivity | lia | reflexivity].
Defined.

(** [PUSH a] appends register [a] to the call-argument stack; the next
    [CALL pid rr] calls [pid] with that whole stack, stores the result in
    register [rr] and empties the stack. *)
Theorem push_then_call vm run p a pid rr x res post :
  drop (cursor_pos p) (cursor_buf p) =
    [opcode_byte PUSH; a; opcode_byte CALL] ++ le_bytes32 pid ++ [rr] ++ post ->
  0 <= pid < 2 ^ 32 ->
  registers p !! Z.to_nat a = Some x ->
  run pid (call_arg_stack p ++ [x]) = res ->
  exists p1, execute_one vm run p = Finished (true, p1) /\
    call_arg_stack p1 = call_arg_stack p ++ [x] /\
    execute_one vm run p1 =
      let! r := res in
      if decide (Z.to_nat rr < length (registers p))%nat
      then Finished (true, set_registers
                             (set_call_arg_stack (set_position p (cursor_pos p + 8)) [])
                             (<[Z.to_nat rr := r]> (registers p)))
      else Panicked.
Proof.
  intros H Hpid Hx Hres. simpl in H. eexists. split; [|split].
  - unfold execute_one, next_opcode, read_register. read_bytes. cbn.
    unfold get_reg. rewrite Hx. reflexivity.
  - reflexivity.
  - apply drop_S_cons in H. apply drop_S_cons in H.
    unfold execute_one, next_opcode, read_register, read_value. cbn zeta.
    read_bytes. cbn. rewrite le_u32_bytes by exact Hpid. rewrite Hres.
    destruct res as [r| |]; [|reflexivity|reflexivity]. cbn.
    unfold set_reg. cbn.
    replace (S (S (S (S (S (S (S (S (cursor_pos p))))))))) with (cursor_pos p + 8)%nat by lia.
    destruct decide; reflexivity.
Qed.

Lemma push_then_call_witness :
  let p := Process_new 0 ([opcode_byte PUSH; 0; opcode_byte CALL] ++ le_bytes32 5 ++
                          [1; opcode_byte HALT]) [] in
  exists p1, execute_one empty_vm (run_program 1 empty_vm) p = Finished (true, p1) /\
    call_arg_stack p1 = call_arg_stack p ++ [Register_default] /\
    execute_one empty_vm (run_program 1 empty_vm) p1 =
      let! r := run_program 1 empty_vm 5 [Register_default] in
      if decide (Z.to_nat 1 < length (registers p))%nat
      then Finished (true, set_registers
                             (set_call_arg_stack (set_position p (cursor_pos p + 8)) [])
                             (<[Z.to_nat 1 := r]> (registers p)))
      else Panicked.
Proof.
  intros p. apply (push_then_call _ _ p 0 5 1 Register_default _ [opcode_byte HALT]);
    [reflexivity | lia | reflexivity | reflexivity].
Defined.

(** [RETURN r] only records [r]; the index is checked when [run_program]
    reads the register at the end. Returning register [r] of an untouched
    program gives the all-zero default register when [r < 16] and panics
    otherwise, although the [RETURN] step itself succeeded. *)
Theorem return_register_read_at_end fuel vm id r call_args :
  0 <= r < 256 ->
  run_program (S (S (S fuel))) (add_program vm id [opcode_byte RETURN; r; opcode_byte HALT]) id call_args =
    if decide (r < 16) then Finished Register_default else Panicked.
Proof.
  intros Hr. cbn [run_program]. unfold add_program. cbn [bytecodes].
  rewrite lookup_insert_eq. cbn -[repeat]. unfold get_return_value, get_reg. cbn -[repeat].
  rewrite lookup_repeat. unfold NUM_REGISTERS.
  destruct (decide (Z.to_nat r < 16)%nat), (decide (r < 16)); try reflexivity; lia.
Qed.

Lemma return_register_read_at_end_witness :
  run_program 3 (add_program empty_vm 1 [opcode_byte RETURN; 200; opcode_byte HALT]) 1 [] =
    if decide (200 < 16) then Finished Register_default else Panicked.
Proof. apply (return_register_read_at_end 0 empty_vm 1 200 []). lia. Defined.

(** ** What the compiler ignores, and how it binds names *)

(** [visit_expression_impl] never looks at the unary operators of an
    [Expression::Base], and [visit_term] never looks at the follows of a
    term other than an identifier: dropping them changes neither the
    bytecode nor the result. So [-x] compiles like [x], and [(a).b] like
    [a]. *)
Theorem unary_and_follows_ignored sid :
  (forall e s, visit_expression sid e s = visit_expression sid (erase_expr e) s) /\
  (forall t fs s, visit_term sid t fs s =
     visit_term sid (erase_term t) (match t with Term_Ident _ => fs | _ => [] end) s).
Proof.
  apply Expression_Term_mut; intros; simpl; try reflexivity.
  - rewrite H. destruct term; reflexivity.
  - unfold cbind. rewrite H.
    destruct (visit_expression sid (erase_expr lhs) s) as [[a s1]| |]; try reflexivity.
    rewrite H0. reflexivity.
  - apply H.
Qed.

Lemma size_insert_present `{Countable K} {A} (m : gmap K A) k v :
  is_Some (m !! k) -> size (<[k := v]> m) = size m.
Proof. intros [w Hw]. rewrite map_size_insert, Hw. reflexivity. Qed.

(** [visit_var] numbers a local by the current size of the locals map.
    Declaring again a name that is already a local does not grow the map,
    so the next new local gets the same slot as the redeclared one, and
    the two share it. *)
Theorem redeclared_local_shares_slot sid s name name' :
  is_Some (c_locals s !! name) -> c_locals s !! name' = None ->
  exists s1 s2,
    visit_statement sid (Statement_Var name None) s = COk (tt, s1) /\
    visit_statement sid (Statement_Var name' None) s1 = COk (tt, s2) /\
    c_locals s2 !! name = Some (size (c_locals s)) /\
    c_locals s2 !! name' = Some (size (c_locals s)).
Proof.
  intros Hn Hn'. assert (Hne : name <> name') by (intros ->; destruct Hn; congruence).
  eexists _, _. split; [cbn; reflexivity|]. split; [cbn; reflexivity|]. cbn.
  rewrite size_insert_present by exact Hn. split.
  - rewrite lookup_insert_ne by congruence. rewrite lookup_insert_eq. reflexivity.
  - rewrite lookup_insert_eq. reflexivity.
Qed.

Lemma redeclared_local_shares_slot_witness :
  let s := mkCState [] 0 [] {[ "a"%string := 0%nat ]} ∅ in
  exists s1 s2,
    visit_statement (fun _ => 0) (Statement_Var "a"%string None) s = COk (tt, s1) /\
    visit_statement (fun _ => 0) (Statement_Var "b"%string None) s1 = COk (tt, s2) /\
    c_locals s2 !! "a"%string = Some (size (c_locals s)) /\
    c_locals s2 !! "b"%string = Some (size (c_locals s)).
Proof.
  intros s. apply redeclared_local_shares_slot; vm_compute; [eexists; reflexivity | reflexivity].
Defined.

(** [visit_var] inserts the name into the locals before it compiles the
    initializer, so in [var/x = x] (with [x] not an argument) the
    initializer reads the new local's own, not yet stored, slot: the code
    is a [LOAD_LOCAL] of that slot followed by the [STORE_LOCAL] into it,
    and no [Unknown identifier] error is raised. *)
Theorem var_initializer_sees_itself sid s name :
  c_args s !! name = None ->
  exists r s',
    visit_statement sid (Statement_Var name (Some (Expression_Base [] (Term_Ident name) []))) s
      = COk (tt, s') /\
    bytecode s' = bytecode s ++
      [opcode_byte LOAD_LOCAL; to_id (size (c_locals s)); to_id r;
       opcode_byte STORE_LOCAL; to_id r; Z.of_nat (size (c_locals s)) mod 256] /\
    c_locals s' !! name = Some (size (c_locals s)).
Proof.
  intros H.
  cbn [visit_statement]. unfold visit_var. cbn [visit_expression visit_term visit_follows].
  unfold cbind, cget, cput, cret, emit, release, get_free_register, set_bytecode.
  cbn beta iota zeta delta [c_args c_locals bytecode free_registers next_free_register].
  rewrite H, lookup_insert_eq.
  cbn beta iota zeta delta [c_args c_locals bytecode free_registers next_free_register].
  destruct (swap_remove0 (free_registers s)) as [[r rest]|]; cbn;
    (eexists _, _; split; [reflexivity|]);
    cbn beta iota zeta delta [c_args c_locals bytecode free_registers next_free_register];
    (split; [rewrite <- app_assoc; reflexivity | apply lookup_insert_eq]).
Qed.

Lemma var_initializer_sees_itself_witness :
  let s := Compiler_new {| parameters := []; code := None |} in
  exists r s',
    visit_statement (fun _ => 0)
      (Statement_Var "x"%string (Some (Expression_Base [] (Term_Ident "x"%string) []))) s
      = COk (tt, s') /\
    bytecode s' = bytecode s ++
      [opcode_byte LOAD_LOCAL; to_id (size (c_locals s)); to_id r;
       opcode_byte STORE_LOCAL; to_id r; Z.of_nat (size (c_locals s)) mod 256] /\
    c_locals s' !! "x"%string = Some (size (c_locals s)).
Proof. intros s. apply var_initializer_sees_itself. vm_compute. reflexivity. Defined.

Lemma args_of_parameters_fold ps :
  fold_left (fun '(m, i) p => (<[p := i]> m, S i)) ps (∅, 0%nat)
  = (args_of_parameters ps, length ps).
Proof.
  assert (G : forall acc : gmap string nat * nat,
             snd (fold_left (fun '(m, i) p => (<[p := i]> m, S i)) ps acc)
             = (snd acc + length ps)%nat).
  { induction ps as [|p ps IH]; intros [m k]; simpl; [lia|]. rewrite IH. simpl. lia. }
  unfold args_of_parameters. rewrite (surjective_pairing (fold_left _ _ _)), G. reflexivity.
Qed.

(** [Compiler::new] maps each parameter name to its position; when a name
    occurs more than once, the collect keeps the last position. A name is
    bound to [i] exactly when parameter [i] is that name and no later
    parameter is. *)
Theorem args_of_parameters_last ps name i :
  args_of_parameters ps !! name = Some i <->
  ps !! i = Some name /\ (forall j, (i < j)%nat -> ps !! j <> Some name).
Proof.
  revert i. induction ps as [|p ps IH] using rev_ind; intros i.
  - split; [discriminate|]. intros [H _]. discriminate H.
  - assert (E : args_of_parameters (ps ++ [p]) = <[p := length ps]> (args_of_parameters ps)).
    { unfold args_of_parameters at 1. rewrite fold_left_app, args_of_parameters_fold. reflexivity. }
    rewrite E. destruct (decide (name = p)) as [->|Hne].
    + rewrite lookup_insert_eq. split.
      * intros [= <-]. split; [rewrite lookup_app_r, Nat.sub_diag by lia; reflexivity|].
        intros j Hj. rewrite lookup_ge_None_2; [discriminate|]. rewrite length_app. simpl. lia.
      * intros [Hi Hj]. f_equal.
        pose proof (lookup_lt_Some _ _ _ Hi) as Hlt. rewrite length_app in Hlt. simpl in Hlt.
        destruct (decide (i = length ps)) as [->|Hne]; [reflexivity|].
        exfalso. apply (Hj (length ps)); [lia|].
        rewrite lookup_app_r, Nat.sub_diag by lia. reflexivity.
    + rewrite lookup_insert_ne by congruence. rewrite IH. split.
      * intros [Hi Hj]. split; [by apply lookup_app_l_Some|].
        intros j Hij Hjn. destruct (decide (j < length ps)%nat).
        -- apply (Hj j Hij). rewrite lookup_app_l in Hjn by lia. exact Hjn.
        -- rewrite lookup_app_r in Hjn by lia.
           destruct (j - length ps)%nat as [|k]; simpl in Hjn; [congruence|].
           rewrite lookup_nil in Hjn. discriminate.
      * intros [Hi Hj].
        assert (Hlt : (i < length ps)%nat).
        { destruct (decide (i < length ps)%nat); [done|].
          rewrite lookup_app_r in Hi by lia.
          destruct (i - length ps)%nat as [|k]; simpl in Hi; [congruence|].
          rewrite lookup_nil in Hi. discriminate. }
        rewrite lookup_app_l in Hi by exact Hlt. split; [exact Hi|].
        intros j Hij Hjn. apply (Hj j Hij). by apply lookup_app_l_Some.
Qed.

(** ** Compiling and running a binary operation on literals *)

(** [return a OP b] on two float literals compiles to two
    [LOAD_IMMEDIATE]s into registers 0 and 1, the operation into register
    2, and [RETURN 2]. Run with a [HALT] appended, it returns,
    number-tagged, the bits [math_bits] of the arithmetic on the two literals'
    bits (the encoded IEEE-754 binary32 result, or a NaN), or 1.0/0.0 for a
    comparison according to the IEEE-754 ordering. *)
Theorem binop_literals_run sid ps op oper b1 b2 fuel vm id call_args :
  opcode_of_binop op = Some oper ->
  0 <= b1 < 2 ^ 32 -> 0 <= b2 < 2 ^ 32 ->
  let bc := [opcode_byte LOAD_IMMEDIATE; 0; NUMBER_TAG] ++ le_bytes32 b1 ++
            [opcode_byte LOAD_IMMEDIATE; 1; NUMBER_TAG] ++ le_bytes32 b2 ++
            [opcode_byte oper; 0; 1; 2; opcode_byte RETURN; 2] in
  compile sid {| parameters := ps;
                 code := Some [Statement_Return (Some (Expression_BinaryOp op
                                 (Expression_Base [] (Term_Float b1) [])
                                 (Expression_Base [] (Term_Float b2) [])))] |} = COk bc /\
  run_program (S (S (S (S (S (S fuel)))))) (add_program vm id (bc ++ [opcode_byte HALT]))
    id call_args =
    Finished (mkRegister NUMBER_TAG
      (match oper with
       | ADD | SUB | MUL | DIV => math_bits oper b1 b2
       | _ => if ieee_holds oper (F32.from_bits b1) (F32.from_bits b2)
              then F32.one_bits else F32.zero_bits
       end)).
Proof.
  intros Hop H1 H2 bc.
  destruct op; cbn in Hop; try discriminate Hop; injection Hop as <-;
    (split; [reflexivity|]);
    cbn [run_program]; unfold add_program; cbn [bytecodes]; rewrite lookup_insert_eq;
    cbv -[le_u32 byte_at F32.from_bits math_bits compare];
    rewrite ?le_u32_bytes by assumption;
    try (rewrite compare_ieee by tauto); reflexivity.
Qed.

Lemma binop_literals_run_witness :
  let bc := [opcode_byte LOAD_IMMEDIATE; 0; NUMBER_TAG] ++ le_bytes32 1065353216 ++
            [opcode_byte LOAD_IMMEDIATE; 1; NUMBER_TAG] ++ le_bytes32 1073741824 ++
            [opcode_byte ADD; 0; 1; 2; opcode_byte RETURN; 2] in
  compile (fun _ => 0) {| parameters := [];
                 code := Some [Statement_Return (Some (Expression_BinaryOp BinaryOp_Add
                                 (Expression_Base [] (Term_Float 1065353216) [])
                                 (Expression_Base [] (Term_Float 1073741824) [])))] |} = COk bc /\
  run_program 6 (add_program empty_vm 1 (bc ++ [opcode_byte HALT])) 1 [] =
    Finished (mkRegister NUMBER_TAG
      (math_bits ADD 1065353216 1073741824)).
Proof.
  apply (binop_literals_run (fun _ => 0) [] BinaryOp_Add ADD 1065353216 1073741824 0 empty_vm 1 []);
    [reflexivity | lia | lia].
Defined.

(** ** Proc hooks *)

Lemma hook_calls_pid_host h cs :
  current_pid (HOOK_VM (hook_calls h cs)) = current_pid (HOOK_VM h) /\
  host (HOOK_VM (hook_calls h cs)) = host (HOOK_VM h).
Proof.
  revert h. induction cs as [|c cs IH]; intros h; [split; reflexivity|].
  simpl. destruct (IH (hook_call h c)) as [-> ->].
  destruct c as [id f|id bc]; simpl; unfold hook_by_id, hook_by_id_with_bytecode_dont_use_this;
    destruct (PROC_HOOKS h !! id); split; reflexivity.
Qed.

(** After any sequence of [hook_by_id] and
    [hook_by_id_with_bytecode_dont_use_this] calls, the hook of a proc id is
    the one it had before, or else the one of the first call for that id:
    later calls for the id change nothing. A bytecode is stored in
    [HOOK_VM] only by a bytecode call that finds the id unhooked; a later
    bytecode call for the same id neither replaces it nor reports the
    failure. *)
Theorem first_hook_call_wins h cs id :
  PROC_HOOKS (hook_calls h cs) !! id =
    match PROC_HOOKS h !! id with
    | Some k => Some k
    | None => call_hook_type <$> first_call id cs
    end /\
  bytecodes (HOOK_VM (hook_calls h cs)) !! id =
    match PROC_HOOKS h !! id, first_call id cs with
    | None, Some (Call_hook_by_id_with_bytecode _ bc) => Some bc
    | _, _ => bytecodes (HOOK_VM h) !! id
    end.
Proof.
  revert h. induction cs as [|c cs IH]; intros h.
  - simpl. destruct (PROC_HOOKS h !! id); split; reflexivity.
  - simpl. destruct (IH (hook_call h c)) as [IH1 IH2]. rewrite IH1, IH2. clear IH1 IH2.
    destruct c as [cid f|cid bc]; simpl;
      unfold hook_by_id, hook_by_id_with_bytecode_dont_use_this;
      destruct (decide (cid = id)) as [<-|Hne].
    + destruct (PROC_HOOKS h !! cid) eqn:E; simpl; [rewrite E; split; reflexivity|].
      rewrite lookup_insert_eq. split; reflexivity.
    + destruct (PROC_HOOKS h !! cid); simpl; [split; reflexivity|].
      rewrite lookup_insert_ne by congruence. split; reflexivity.
    + destruct (PROC_HOOKS h !! cid) eqn:E; simpl; [rewrite E; split; reflexivity|].
      unfold add_program. simpl. rewrite !lookup_insert_eq. split; reflexivity.
    + destruct (PROC_HOOKS h !! cid); simpl; [split; reflexivity|].
      unfold add_program. simpl. rewrite !lookup_insert_ne by congruence. split; reflexivity.
Qed.

(** For a proc id unhooked at the start of a sequence of registrations,
    [call_proc_by_id_hook] follows the first registration for it: without
    one the call goes to the original proc; a Rust hook is called with
    [src], [usr] and the arguments, its [Err] becoming a [stack_trace] call;
    a bytecode hook runs exactly the first registered bytecode on the
    arguments in a fresh process of [HOOK_VM], and returns the return
    register with its tag cut to a byte. *)
Theorem dispatch_follows_first_hook_call fuel h cs id usr src args :
  PROC_HOOKS h !! id = None ->
  call_proc_by_id_hook (S fuel) (hook_calls h cs) usr id src args =
    match first_call id cs with
    | None => Finished Hook_Original
    | Some (Call_hook_by_id _ f) =>
        Finished (match f src usr args with
                  | inl r => Hook_Returned r
                  | inr e => Hook_StackTrace e
                  end)
    | Some (Call_hook_by_id_with_bytecode _ bc) =>
        let! p := execute fuel (HOOK_VM (hook_calls h cs))
                    (Process_new (current_pid (HOOK_VM h)) bc args) in
        let! ret := get_return_value p in
        Finished (Hook_Returned (mkRegister (Z.land (tag ret) 255) (value ret)))
    end.
Proof.
  intros H. destruct (first_hook_call_wins h cs id) as [E1 E2].
  rewrite H in E1, E2. unfold call_proc_by_id_hook. rewrite E1.
  destruct (first_call id cs) as [[cid f|cid bc]|]; simpl; [| |reflexivity].
  - destruct (f src usr args); reflexivity.
  - unfold hook_vm_branch. cbn [run_program]. rewrite E2.
    destruct (hook_calls_pid_host h cs) as [-> _].
    destruct (execute fuel _ _) as [p| |]; simpl; [|reflexivity|reflexivity].
    destruct (get_return_value p); reflexivity.
Qed.

Lemma dispatch_follows_first_hook_call_witness :
  let bc := [opcode_byte LOAD_ARGUMENT; 0; 0; opcode_byte RETURN; 0; opcode_byte HALT] in
  let cs := [Call_hook_by_id_with_bytecode 1 bc;
             Call_hook_by_id 1 (fun _ _ _ => inr "unused"%string)] in
  call_proc_by_id_hook 5 (hook_calls (mkHooks ∅ empty_vm) cs) Register_default 1
    Register_default [mkRegister NUMBER_TAG 5] =
    match first_call 1 cs with
    | None => Finished Hook_Original
    | Some (Call_hook_by_id _ f) =>
        Finished (match f Register_default Register_default [mkRegister NUMBER_TAG 5] with
                  | inl r => Hook_Returned r
                  | inr e => Hook_StackTrace e
                  end)
    | Some (Call_hook_by_id_with_bytecode _ bc) =>
        let! p := execute 4 (HOOK_VM (hook_calls (mkHooks ∅ empty_vm) cs))
                    (Process_new (current_pid (HOOK_VM (mkHooks ∅ empty_vm))) bc
                       [mkRegister NUMBER_TAG 5]) in
        let! ret := get_return_value p in
        Finished (Hook_Returned (mkRegister (Z.land (tag ret) 255) (value ret)))
    end.
Proof. intros bc cs. apply (dispatch_follows_first_hook_call 4). reflexivity. Defined.
